(** * flashbots-failed-tx: the block checker, the live watcher and the range scan

    A shallow embedding of [main.go].  The Go packages the program imports
    are kept as modules of the same name ([big], [common], [types],
    [blockswithtx], [utils]); the package-level variables of [main] are the
    fields of [Globals]; the remote services (the Ethereum node and the
    Flashbots API) are the fields of [World]. *)

From Stdlib Require Import ZArith Strings.Byte.
From stdpp Require Import base option list gmap strings fin_maps.

Set Warnings "-clear-no-such-hyp".

Local Open Scope Z_scope.

(** ** Imported packages *)

Definition error := string.

(** [math/big]: a [*big.Int] is an unbounded integer.  [Int64] and [Uint64]
    keep the low 64 bits of the magnitude ([low64 x.abs]); [Int64] converts
    them to a signed word and negates it for a negative receiver. *)
Module big.

Definition low64 (x : Z) : Z := Z.abs x mod 2 ^ 64.

Definition to_int64 (v : Z) : Z := (v + 2 ^ 63) mod 2 ^ 64 - 2 ^ 63.

Definition Uint64 (x : Z) : Z := low64 x.

Definition Int64 (x : Z) : Z :=
  let v := to_int64 (low64 x) in
  if x <? 0 then to_int64 (- v) else v.

End big.

(** [int64] addition, as [numTx += ...] performs it. *)
Definition int64_add (a b : Z) : Z := big.to_int64 (a + b).

(** [go-ethereum/common]: hashes and addresses, represented by the text
    their [String] method renders. *)
Module common.

Definition Hash := string.
Definition Address := string.

Definition HashString (h : Hash) : string := h.
Definition AddressString (a : Address) : string := a.

(** The zero value of [Address]. *)
Definition zeroAddress : Address :=
  "0x0000000000000000000000000000000000000000"%string.

End common.

(** [go-ethereum/core/types] *)
Module types.

Record Receipt := mkReceipt { Status : Z }.

(** [To] is a [*common.Address]: [None] is the nil pointer of a
    contract creation.  [signer] is what signature recovery yields,
    [None] when it fails. *)
Record Transaction := mkTransaction {
  Hash : common.Hash;
  GasPrice : Z;
  Data : list byte;
  To : option common.Address;
  signer : option common.Address
}.

Record Block := mkBlock {
  Number : Z;
  Transactions : list Transaction
}.

Record Header := mkHeader { HeaderNumber : Z }.

End types.

(** [go-ethutils/blockswithtx] *)
Module blockswithtx.

Record BlockWithTxReceipts := mkBlockWithTxReceipts {
  Block : types.Block;
  TxReceipts : gmap string types.Receipt
}.

End blockswithtx.

(** [go-ethutils/utils] *)
Module utils.

Definition IsBigIntZero (n : Z) : bool := n =? 0.

(** [GetTxSender] returns the recovered address, or the zero address
    together with an error. *)
Definition GetTxSender (tx : types.Transaction) : common.Address * option error :=
  match types.signer tx with
  | Some a => (a, None)
  | None => (common.zeroAddress, Some "invalid signature"%string)
  end.

End utils.

(** ** Package [main] *)

Record FailedTx := mkFailedTx {
  Hash : string;
  From : string;
  To : string;
  Block : Z;
  IsFlashbots : bool
}.

#[global] Instance FailedTx_eq_dec : EqDecision FailedTx.
Proof. solve_decision. Defined.

(** What the program writes to the terminal and to the log. *)
Inductive Output :=
| PrintBlock (b : types.Block)
| QueueingNewBlock (n : Z)
| LogError (e : error)
| FailedFlashbotsTx (hash : common.Hash) (sender : common.Address) (n : Z)
| FailedZeroGasTx (hash : common.Hash) (sender : common.Address) (n : Z)
| CheckingBlocks (startHeight endHeight : Z)
| Processed (blocks numTx : Z).

(** The package-level variables, and the output written so far. *)
Record Globals := mkGlobals {
  silent : bool;
  isWatchMode : bool;
  BlockBacklog : gmap Z blockswithtx.BlockWithTxReceipts;
  FailedTxHistory : list FailedTx;
  output : list Output
}.

Definition initial (silent_flag : bool) : Globals :=
  {| silent := silent_flag; isWatchMode := false;
     BlockBacklog := ∅; FailedTxHistory := []; output := [] |}.

(** The remote services as they answer during one pass: the node, the two
    queries of the Flashbots API, and the order in which [range] walks a
    map (Go leaves it unspecified). *)
Record World := mkWorld {
  GetBlockWithTxReceipts : Z → error + blockswithtx.BlockWithTxReceipts;
  GetFlashbotsBlock : Z → error + Z;
  IsFlashbotsTx : types.Block → types.Transaction → error + bool;
  rangeOrder : gmap Z blockswithtx.BlockWithTxReceipts →
               list (Z * blockswithtx.BlockWithTxReceipts)
}.

(** *** Procedures: state passing with the ways a Go routine stops *)

Inductive Crash :=
| NilDereference
| PerrorPanic (e : error)
| LogFatal (e : error).

Inductive Result (A : Type) :=
| Done (a : A) (g : Globals)
| Crashed (c : Crash) (g : Globals).
Arguments Done {A} a g.
Arguments Crashed {A} c g.

Definition Proc (A : Type) : Type := Globals → Result A.

Definition ret {A} (a : A) : Proc A := λ g, Done a g.

Definition bind {A B} (m : Proc A) (k : A → Proc B) : Proc B :=
  λ g, match m g with
       | Done a g' => k a g'
       | Crashed c g' => Crashed c g'
       end.

Definition crash {A} (c : Crash) : Proc A := λ g, Crashed c g.

Notation "'do' x <- m ; k" := (bind m (λ x, k))
  (at level 10, x name, m at level 100, k at level 200).
Notation "m ;; k" := (bind m (λ _, k))
  (at level 100, k at level 200, right associativity).

Definition get {A} (f : Globals → A) : Proc A := λ g, Done (f g) g.

(** Assignments to the package-level variables. *)
Definition withOutput (o : Output) (g : Globals) : Globals :=
  {| silent := silent g; isWatchMode := isWatchMode g;
     BlockBacklog := BlockBacklog g;
     FailedTxHistory := FailedTxHistory g;
     output := output g ++ [o] |}.

Definition withBlockBacklog (m : gmap Z blockswithtx.BlockWithTxReceipts)
    (g : Globals) : Globals :=
  {| silent := silent g; isWatchMode := isWatchMode g;
     BlockBacklog := m;
     FailedTxHistory := FailedTxHistory g;
     output := output g |}.

Definition withFailedTxHistory (h : list FailedTx) (g : Globals) : Globals :=
  {| silent := silent g; isWatchMode := isWatchMode g;
     BlockBacklog := BlockBacklog g;
     FailedTxHistory := h;
     output := output g |}.

Definition withIsWatchMode (v : bool) (g : Globals) : Globals :=
  {| silent := silent g; isWatchMode := v;
     BlockBacklog := BlockBacklog g;
     FailedTxHistory := FailedTxHistory g;
     output := output g |}.

Definition print (o : Output) : Proc unit := λ g, Done tt (withOutput o g).

Definition setBlockBacklog (m : gmap Z blockswithtx.BlockWithTxReceipts) : Proc unit :=
  λ g, Done tt (withBlockBacklog m g).

Definition setFailedTxHistory (h : list FailedTx) : Proc unit :=
  λ g, Done tt (withFailedTxHistory h g).

Definition setIsWatchMode (v : bool) : Proc unit :=
  λ g, Done tt (withIsWatchMode v g).

(** *** The history of failed transactions (main.go, lines 175-178) *)

(** [if len(FailedTxHistory) == 100 { FailedTxHistory = FailedTxHistory[1:] }]
    followed by [FailedTxHistory = append(FailedTxHistory, failedTx)]. *)
Definition remember (history : list FailedTx) (failedTx : FailedTx) : list FailedTx :=
  let history' := if (length history =? 100)%nat then drop 1 history else history in
  history' ++ [failedTx].

(** *** checkBlock *)

(** How the body of the loop over the transactions ends: it falls through to
    the next transaction ([continue] included), or it leaves [checkBlock]
    by [return]. *)
Inductive Flow := Next | Return.

(** [tx.To().String()]: [String] has a value receiver, so the call
    dereferences the pointer. *)
Definition ToString (to : option common.Address) : Proc string :=
  match to with
  | Some a => ret (common.AddressString a)
  | None => crash NilDereference
  end.

(** The body of [for _, tx := range b.Block.Transactions()] (lines 150-187). *)
Definition checkTransaction (w : World) (b : blockswithtx.BlockWithTxReceipts)
    (tx : types.Transaction) : Proc Flow :=
  match blockswithtx.TxReceipts b !! types.Hash tx with
  | None => ret Next
  | Some receipt =>
    if utils.IsBigIntZero (types.GasPrice tx) && (0 <? length (types.Data tx))%nat then
      let sender := fst (utils.GetTxSender tx) in
      if types.Status receipt =? 1 then ret Next
      else
        match IsFlashbotsTx w (blockswithtx.Block b) tx with
        | inl err => print (LogError err) ;; ret Return
        | inr isFlashbotsTx =>
          do to <- ToString (types.To tx) ;
          let failedTx :=
            {| Hash := common.HashString (types.Hash tx);
               From := common.AddressString sender;
               To := to;
               Block := big.Uint64 (types.Number (blockswithtx.Block b));
               IsFlashbots := isFlashbotsTx |} in
          do history <- get FailedTxHistory ;
          setFailedTxHistory (remember history failedTx) ;;
          (if isFlashbotsTx
           then print (FailedFlashbotsTx (types.Hash tx) sender
                         (types.Number (blockswithtx.Block b)))
           else print (FailedZeroGasTx (types.Hash tx) sender
                         (types.Number (blockswithtx.Block b)))) ;;
          ret Next
        end
    else ret Next
  end.

Fixpoint forTransactions (w : World) (b : blockswithtx.BlockWithTxReceipts)
    (txs : list types.Transaction) : Proc Flow :=
  match txs with
  | [] => ret Next
  | tx :: rest =>
    do flow <- checkTransaction w b tx ;
    match flow with
    | Next => forTransactions w b rest
    | Return => ret Return
    end
  end.

Definition checkBlock (w : World) (b : blockswithtx.BlockWithTxReceipts) : Proc unit :=
  do quiet <- get silent ;
  (if quiet then ret tt else print (PrintBlock (blockswithtx.Block b))) ;;
  do flow <- forTransactions w b (types.Transactions (blockswithtx.Block b)) ;
  match flow with
  | Return => ret tt
  | Next =>
    do backlog <- get BlockBacklog ;
    setBlockBacklog (delete (big.Int64 (types.Number (blockswithtx.Block b))) backlog)
  end.

(** *** watch *)

(** What the [select] of [watch] receives: an error of the subscription, or
    a header, together with the answers the remote services give while that
    header is handled. *)
Inductive Event :=
| SubscriptionError (err : error)
| NewHeader (header : types.Header) (w : World).

(** [for height, backlogBlock := range BlockBacklog] (lines 135-139):
    [entries] is the order of the walk.  An entry that was deleted before
    the walk reaches it is not produced. *)
Fixpoint forBacklog (w : World) (latestBlockNumber : Z)
    (entries : list (Z * blockswithtx.BlockWithTxReceipts)) : Proc unit :=
  match entries with
  | [] => ret tt
  | (height, _) :: rest =>
    do backlog <- get BlockBacklog ;
    match backlog !! height with
    | None => ret tt
    | Some backlogBlock =>
      if height <=? latestBlockNumber then checkBlock w backlogBlock else ret tt
    end ;;
    forBacklog w latestBlockNumber rest
  end.

(** Lines 117-125: fetch the block of the header and add it to the backlog. *)
Definition queueBlock (w : World) (header : types.Header) : Proc unit :=
  match GetBlockWithTxReceipts w (big.Int64 (types.HeaderNumber header)) with
  | inl err => crash (PerrorPanic err)
  | inr b =>
    do quiet <- get silent ;
    (if quiet then ret tt
     else print (QueueingNewBlock (types.Number (blockswithtx.Block b)))) ;;
    do backlog <- get BlockBacklog ;
    setBlockBacklog (<[big.Int64 (types.HeaderNumber header) := b]> backlog)
  end.

(** Lines 127-139: ask the Flashbots API for the latest block it has
    processed and check the blocks of the backlog up to it. *)
Definition processBacklog (w : World) (header : types.Header) : Proc unit :=
  match GetFlashbotsBlock w (big.Int64 (types.HeaderNumber header)) with
  | inl err => print (LogError err)
  | inr latestBlockNumber =>
    do backlog <- get BlockBacklog ;
    forBacklog w latestBlockNumber (rangeOrder w backlog)
  end.

Definition onHeader (w : World) (header : types.Header) : Proc unit :=
  queueBlock w header ;; processBacklog w header.

(** The [for { select { ... } }] of [watch] on the events received so far. *)
Fixpoint watchLoop (events : list Event) : Proc unit :=
  match events with
  | [] => ret tt
  | SubscriptionError err :: _ => crash (LogFatal err)
  | NewHeader header w :: rest => onHeader w header ;; watchLoop rest
  end.

(** [subscribe] is the error of [client.SubscribeNewHead], if any.  The
    routine of lines 107-110 that serves [FailedTxHistory] over HTTP only
    reads the history and is left out. *)
Definition watch (subscribe : option error) (events : list Event) : Proc unit :=
  setIsWatchMode true ;;
  match subscribe with
  | Some err => crash (LogFatal err)
  | None => watchLoop events
  end.

Definition globalsOf {A} (r : Result A) : Globals :=
  match r with Done _ g => g | Crashed _ g => g end.

(** The heights that are pending when the check of the backlog starts and
    are no longer pending when the handling of the header ends. *)
Definition removedBy (w : World) (header : types.Header) (g : Globals) : gset Z :=
  match queueBlock w header g with
  | Done _ g1 =>
    dom (BlockBacklog g1) ∖ dom (BlockBacklog (globalsOf (processBacklog w header g1)))
  | Crashed _ _ => ∅
  end.

(** In how many of the cycles of [watchLoop] the height [h] is removed. *)
Fixpoint removals (h : Z) (events : list Event) (g : Globals) : nat :=
  match events with
  | [] => 0%nat
  | SubscriptionError _ :: _ => 0%nat
  | NewHeader header w :: rest =>
    ((if decide (h ∈ removedBy w header g) then 1 else 0) +
     match onHeader w header g with
     | Done _ g' => removals h rest g'
     | Crashed _ _ => 0
     end)%nat
  end.

(** The cycles of [watchLoop]: each header that is handled, with the
    answers of the remote services and the globals at which its handling
    starts. *)
Fixpoint cycles (events : list Event) (g : Globals)
    : list (World * types.Header * Globals) :=
  match events with
  | [] => []
  | SubscriptionError _ :: _ => []
  | NewHeader header w :: rest =>
    (w, header, g) ::
    match onHeader w header g with
    | Done _ g' => cycles rest g'
    | Crashed _ _ => []
    end
  end.

Definition headerHeights (events : list Event) : list Z :=
  omap (λ e, match e with
             | NewHeader header _ => Some (big.Int64 (types.HeaderNumber header))
             | SubscriptionError _ => None
             end) events.

(** How many of the headers of [events] announce the height [h]. *)
Definition announcements (h : Z) (events : list Event) : nat :=
  length (filter (λ k, k = h) (headerHeights events)).

(** The node answers a request for a height with the block of that height. *)
Definition nodeAnswersHeight (e : Event) : Prop :=
  match e with
  | SubscriptionError _ => True
  | NewHeader header w =>
    ∀ b, GetBlockWithTxReceipts w (big.Int64 (types.HeaderNumber header)) = inr b →
         big.Int64 (types.Number (blockswithtx.Block b))
         = big.Int64 (types.HeaderNumber header)
  end.

(** The keys of the backlog are the heights of its blocks. *)
Definition backlogKeyed (g : Globals) : Prop :=
  ∀ height b, BlockBacklog g !! height = Some b →
              big.Int64 (types.Number (blockswithtx.Block b)) = height.

(** *** checkBlockRange *)

(** [checkBlockRange] runs three parties: the calling routine, the worker
    pool of [GetBlocksWithTxReceipts] that sends the fetched blocks on
    [blockChan], and the routine that receives them.  [step] is one atomic
    move of one party; a schedule is the order in which the parties move.
    The process ends when the caller has returned or, after a panic, when
    the runtime exits, which may be at any later moment: a run is a schedule
    followed up to the moment the process ends. *)
Module checkBlockRange.

Inductive Caller := Fetching | Closing | Locking | Reporting | Returned.

(** [Spawned]: started by [go], before [lock.Lock()]; [Ranging]: holding
    the lock, in [for b := range blockChan]; [Finished]: the loop has
    ended and the deferred [lock.Unlock()] has run; [Panicked]: [checkBlock]
    has panicked, the deferred [lock.Unlock()] has run while the panic
    unwound the routine, and the routine is gone. *)
Inductive Receiver := Spawned | Ranging | Finished | Panicked.

Inductive Party := CallerMoves | PoolSends | ReceiverMoves.

Record State := mkState {
  caller : Caller;
  receiver : Receiver;
  toSend : list blockswithtx.BlockWithTxReceipts;
  blockChan : list blockswithtx.BlockWithTxReceipts;
  closed : bool;
  locked : bool;
  numTx : Z;
  checked : list blockswithtx.BlockWithTxReceipts;
  globals : Globals;
  crashed : option Crash
}.

Definition capacity : nat := 100.

(** The state after [go func() {...}()], when the caller enters
    [GetBlocksWithTxReceipts]; [delivery] lists the blocks in the order
    in which the pool sends them. *)
Definition start (startHeight endHeight : Z)
    (delivery : list blockswithtx.BlockWithTxReceipts) (g : Globals) : State :=
  {| caller := Fetching; receiver := Spawned;
     toSend := delivery; blockChan := []; closed := false; locked := false;
     numTx := 0; checked := [];
     globals := withOutput (CheckingBlocks startHeight endHeight) g;
     crashed := None |}.

(** The caller: [GetBlocksWithTxReceipts] returns when the pool has sent
    every block (line 84); then [close(blockChan)] (line 87), [lock.Lock()]
    (line 88, blocked while the lock is held) and the report (line 92). *)
Definition callerStep (startHeight endHeight : Z) (s : State) : option State :=
  match caller s with
  | Fetching =>
    match toSend s with
    | [] => Some {| caller := Closing; receiver := receiver s; toSend := [];
                    blockChan := blockChan s; closed := closed s;
                    locked := locked s; numTx := numTx s; checked := checked s;
                    globals := globals s; crashed := crashed s |}
    | _ :: _ => None
    end
  | Closing =>
    Some {| caller := Locking; receiver := receiver s; toSend := toSend s;
            blockChan := blockChan s; closed := true;
            locked := locked s; numTx := numTx s; checked := checked s;
            globals := globals s; crashed := crashed s |}
  | Locking =>
    if locked s then None
    else Some {| caller := Reporting; receiver := receiver s; toSend := toSend s;
                 blockChan := blockChan s; closed := closed s;
                 locked := true; numTx := numTx s; checked := checked s;
                 globals := globals s; crashed := crashed s |}
  | Reporting =>
    Some {| caller := Returned; receiver := receiver s; toSend := toSend s;
            blockChan := blockChan s; closed := closed s;
            locked := locked s; numTx := numTx s; checked := checked s;
            globals :=
              withOutput (Processed (int64_add (int64_add endHeight (- startHeight)) 1)
                                    (numTx s)) (globals s);
            crashed := crashed s |}
  | Returned => None
  end.

(** The pool sends its next block; the send blocks while the channel holds
    [capacity] blocks (line 69: [make(chan ..., 100)]). *)
Definition poolStep (s : State) : option State :=
  match caller s, toSend s with
  | Fetching, b :: rest =>
    if (length (blockChan s) <? capacity)%nat
    then Some {| caller := caller s; receiver := receiver s; toSend := rest;
                 blockChan := blockChan s ++ [b]; closed := closed s;
                 locked := locked s; numTx := numTx s; checked := checked s;
                 globals := globals s; crashed := crashed s |}
    else None
  | _, _ => None
  end.

(** The routine started at line 74: [lock.Lock()] (line 75); one turn of
    [for b := range blockChan] (lines 77-80); the end of the loop on the
    closed and empty channel, with the deferred [lock.Unlock()] (line 76).
    When [checkBlock] panics, line 79 is not reached, the deferred
    [lock.Unlock()] runs all the same and releases the lock, and the routine
    ends; [crashed] keeps the panic that will end the process. *)
Definition receiverStep (w : World) (s : State) : option State :=
  match receiver s with
  | Spawned =>
    if locked s then None
    else Some {| caller := caller s; receiver := Ranging; toSend := toSend s;
                 blockChan := blockChan s; closed := closed s;
                 locked := true; numTx := numTx s; checked := checked s;
                 globals := globals s; crashed := crashed s |}
  | Ranging =>
    match blockChan s with
    | b :: rest =>
      match checkBlock w b (globals s) with
      | Done _ g' =>
        Some {| caller := caller s; receiver := Ranging; toSend := toSend s;
                blockChan := rest; closed := closed s; locked := locked s;
                numTx := int64_add (numTx s)
                           (Z.of_nat (length (types.Transactions (blockswithtx.Block b))));
                checked := checked s ++ [b];
                globals := g'; crashed := crashed s |}
      | Crashed c g' =>
        Some {| caller := caller s; receiver := Panicked; toSend := toSend s;
                blockChan := rest; closed := closed s; locked := false;
                numTx := numTx s; checked := checked s ++ [b];
                globals := g'; crashed := Some c |}
      end
    | [] =>
      if closed s
      then Some {| caller := caller s; receiver := Finished; toSend := toSend s;
                   blockChan := []; closed := closed s; locked := false;
                   numTx := numTx s; checked := checked s;
                   globals := globals s; crashed := crashed s |}
      else None
    end
  | Finished => None
  | Panicked => None
  end.

(** One move of party [p]; [None] when [p] is blocked or has ended.  After
    a panic of the receiving routine the caller and the pool go on moving
    until the runtime exits. *)
Definition step (w : World) (startHeight endHeight : Z) (p : Party) (s : State)
    : option State :=
  match p with
  | CallerMoves => callerStep startHeight endHeight s
  | PoolSends => poolStep s
  | ReceiverMoves => receiverStep w s
  end.

Fixpoint run (w : World) (startHeight endHeight : Z) (schedule : list Party)
    (s : State) : option State :=
  match schedule with
  | [] => Some s
  | p :: rest =>
    match step w startHeight endHeight p s with
    | Some s' => run w startHeight endHeight rest s'
    | None => None
    end
  end.

(** The transaction count the caller prints, once it has printed it. *)
Definition reported (s : State) : option Z :=
  match caller s with
  | Returned =>
    match last (output (globals s)) with
    | Some (Processed _ n) => Some n
    | _ => None
    end
  | _ => None
  end.

(** The value of [numTx] after the blocks [bs] have been counted. *)
Definition countTx (bs : list blockswithtx.BlockWithTxReceipts) : Z :=
  foldl (λ n b, int64_add n (Z.of_nat (length (types.Transactions (blockswithtx.Block b)))))
        0 bs.

(** The sum over the blocks [bs] of their numbers of transactions. *)
Definition totalTx (bs : list blockswithtx.BlockWithTxReceipts) : Z :=
  foldr (λ b n, Z.of_nat (length (types.Transactions (blockswithtx.Block b))) + n) 0 bs.

(** What holds in every state of a scan of [delivery]. *)
Definition invariant (w : World) (delivery : list blockswithtx.BlockWithTxReceipts)
    (s : State) : Prop :=
  checked s ++ blockChan s ++ toSend s = delivery ∧
  (crashed s = None → numTx s = countTx (checked s)) ∧
  closed s = match caller s with Fetching | Closing => false | _ => true end ∧
  (caller s ≠ Fetching → toSend s = []) ∧
  locked s = match receiver s, caller s with
             | Ranging, _ => true
             | _, (Reporting | Returned) => true
             | _, _ => false
             end ∧
  (receiver s = Ranging → caller s ≠ Reporting ∧ caller s ≠ Returned) ∧
  (receiver s = Spawned → checked s = []) ∧
  (receiver s = Finished → blockChan s = [] ∧ closed s = true) ∧
  (length (blockChan s) ≤ capacity)%nat ∧
  (crashed s ≠ None → receiver s = Panicked) ∧
  (receiver s = Panicked →
   ∃ pre b c g0 g',
     checked s = pre ++ [b] ∧ numTx s = countTx pre ∧
     crashed s = Some c ∧ checkBlock w b g0 = Crashed c g').

(** How many moves are left at most: two for each block to send, one for
    each block in the channel, and the moves the caller and the receiving
    routine have yet to make. *)
Definition remaining (s : State) : nat :=
  (2 * length (toSend s) + length (blockChan s)
   + match caller s with
     | Fetching => 4 | Closing => 3 | Locking => 2 | Reporting => 1 | Returned => 0
     end
   + match receiver s with
     | Spawned => 2 | Ranging => 1 | Finished => 0 | Panicked => 0
     end)%nat.

End checkBlockRange.

(** *** Functions that describe what [checkBlock] does *)

(** The globals once [checkBlock] has printed the block (unless silent). *)
Definition announced (b : blockswithtx.BlockWithTxReceipts) (g : Globals) : Globals :=
  if silent g then g else withOutput (PrintBlock (blockswithtx.Block b)) g.

(** A transaction that [checkBlock] treats as a failed 0-gas transaction: it
    has a receipt, its gas price is zero, it carries data and the status of
    the receipt is not 1. *)
Definition failedZeroGas (b : blockswithtx.BlockWithTxReceipts)
    (tx : types.Transaction) : bool :=
  match blockswithtx.TxReceipts b !! types.Hash tx with
  | None => false
  | Some receipt =>
    utils.IsBigIntZero (types.GasPrice tx) && (0 <? length (types.Data tx))%nat
    && negb (types.Status receipt =? 1)
  end.

(** The record of a failed 0-gas transaction with recipient [to] and
    answer [isFlashbotsTx] of the Flashbots API. *)
Definition recordOf (b : blockswithtx.BlockWithTxReceipts) (tx : types.Transaction)
    (to : common.Address) (isFlashbotsTx : bool) : FailedTx :=
  {| Hash := common.HashString (types.Hash tx);
     From := common.AddressString (fst (utils.GetTxSender tx));
     To := common.AddressString to;
     Block := big.Uint64 (types.Number (blockswithtx.Block b));
     IsFlashbots := isFlashbotsTx |}.

(** The record a transaction leaves in the history when its check runs to
    the end of the loop body, if it leaves one. *)
Definition recorded (w : World) (b : blockswithtx.BlockWithTxReceipts)
    (tx : types.Transaction) : option FailedTx :=
  if failedZeroGas b tx then
    match IsFlashbotsTx w (blockswithtx.Block b) tx, types.To tx with
    | inr isFlashbotsTx, Some to => Some (recordOf b tx to isFlashbotsTx)
    | _, _ => None
    end
  else None.

(** The line printed for a failed transaction (lines 181-185). *)
Definition failureLine (b : blockswithtx.BlockWithTxReceipts) (tx : types.Transaction)
    (isFlashbotsTx : bool) : Output :=
  if isFlashbotsTx
  then FailedFlashbotsTx (types.Hash tx) (fst (utils.GetTxSender tx))
         (types.Number (blockswithtx.Block b))
  else FailedZeroGasTx (types.Hash tx) (fst (utils.GetTxSender tx))
         (types.Number (blockswithtx.Block b)).

(** The globals once the record of a failed transaction has been appended
    and its line printed (lines 168-185). *)
Definition withRecord (b : blockswithtx.BlockWithTxReceipts) (tx : types.Transaction)
    (to : common.Address) (isFlashbotsTx : bool) (g : Globals) : Globals :=
  withOutput (failureLine b tx isFlashbotsTx)
    (withFailedTxHistory
       (remember (FailedTxHistory g) (recordOf b tx to isFlashbotsTx)) g).

(** The key under which [checkBlock] deletes a block from the backlog. *)
Definition backlogKey (b : blockswithtx.BlockWithTxReceipts) : Z :=
  big.Int64 (types.Number (blockswithtx.Block b)).

(** The line a transaction leaves in the output when its check runs to the
    end of the loop body, if it leaves one. *)
Definition reportOf (w : World) (b : blockswithtx.BlockWithTxReceipts)
    (tx : types.Transaction) : option Output :=
  if failedZeroGas b tx then
    match IsFlashbotsTx w (blockswithtx.Block b) tx, types.To tx with
    | inr isFlashbotsTx, Some _ => Some (failureLine b tx isFlashbotsTx)
    | _, _ => None
    end
  else None.

(** The check of [b] runs to the end of the block: for each of its failed
    0-gas transactions the bundle query is answered and the recipient is
    not nil. *)
Definition checkable (w : World) (b : blockswithtx.BlockWithTxReceipts) : bool :=
  forallb (λ tx, match recorded w b tx with
                 | Some _ => true
                 | None => negb (failedZeroGas b tx)
                 end)
          (types.Transactions (blockswithtx.Block b)).

(** Every transaction of [b] names a recipient. *)
Definition hasRecipients (b : blockswithtx.BlockWithTxReceipts) : Prop :=
  Forall (λ tx, is_Some (types.To tx)) (types.Transactions (blockswithtx.Block b)).

(** [range] produces every entry of the map once. *)
Definition walksWholeMap (w : World) : Prop :=
  ∀ m, rangeOrder w m ≡ₚ map_to_list m.

(** A header whose block the node delivers, every transaction of the block
    naming a recipient. *)
Definition deliversRecipients (e : Event) : Prop :=
  match e with
  | SubscriptionError _ => False
  | NewHeader header w =>
    ∃ b, GetBlockWithTxReceipts w (big.Int64 (types.HeaderNumber header)) = inr b ∧
         hasRecipients b
  end.

(** ** Sample data *)

Module sample.

Definition tx (hash : string) (to : option common.Address) : types.Transaction :=
  {| types.Hash := hash; types.GasPrice := 0; types.Data := ["a"%byte];
     types.To := to; types.signer := Some "0xf00d"%string |}.

(** A block in which every transaction has a receipt with status 0. *)
Definition block (number : Z) (txs : list types.Transaction)
    : blockswithtx.BlockWithTxReceipts :=
  {| blockswithtx.Block := {| types.Number := number; types.Transactions := txs |};
     blockswithtx.TxReceipts :=
       list_to_map ((λ t, (types.Hash t, {| types.Status := 0 |})) <$> txs) |}.

(** The same with status 1 in every receipt. *)
Definition succeeded (number : Z) (txs : list types.Transaction)
    : blockswithtx.BlockWithTxReceipts :=
  {| blockswithtx.Block := {| types.Number := number; types.Transactions := txs |};
     blockswithtx.TxReceipts :=
       list_to_map ((λ t, (types.Hash t, {| types.Status := 1 |})) <$> txs) |}.

Definition transfer : types.Transaction := tx "0x01" (Some "0xbeef"%string).
Definition second : types.Transaction := tx "0x02" (Some "0xcafe"%string).
Definition creation : types.Transaction := tx "0x03" None.

(** A world in which the node holds [blocks], the Flashbots API reports
    [latest] and answers the bundle query with [bundled]. *)
Definition world (blocks : list blockswithtx.BlockWithTxReceipts)
    (latest : error + Z)
    (bundled : types.Transaction → error + bool) : World :=
  {| GetBlockWithTxReceipts := λ n,
       match list_find (λ b, types.Number (blockswithtx.Block b) = n) blocks with
       | Some (_, b) => inr b
       | None => inl "not found"%string
       end;
     GetFlashbotsBlock := λ _, latest;
     IsFlashbotsTx := λ _ t, bundled t;
     rangeOrder := map_to_list |}.

(** The Flashbots API answers every bundle query with [true]. *)
Definition bundled (_ : types.Transaction) : error + bool := inr true.

(** The bundle query fails for the transaction with hash [hash]. *)
Definition failsAt (hash : common.Hash) (t : types.Transaction) : error + bool :=
  if decide (types.Hash t = hash) then inl "timeout"%string else inr true.

Definition header (n : Z) : types.Header := {| types.HeaderNumber := n |}.

Definition pending5 : blockswithtx.BlockWithTxReceipts := block 5 [transfer; second].
Definition empty6 : blockswithtx.BlockWithTxReceipts := block 6 [].


(** The same header arrives twice. *)
Definition sameHeightTwice : list Event :=
  [NewHeader (header 5) (world [pending5] (inr 5) bundled);
   NewHeader (header 5) (world [pending5] (inr 5) bundled)].

(** The header of height 5 arrives twice, then the header of height 6. *)
Definition twiceThenSix : list Event :=
  sameHeightTwice ++ [NewHeader (header 6) (world [empty6] (inr 6) bundled)].

(** The Flashbots API does not answer the query for its latest block. *)
Definition unreachable : World :=
  world [pending5] (inl "connection refused"%string) bundled.

Definition plain47 : blockswithtx.BlockWithTxReceipts := block 47 [transfer].
Definition plain48 : blockswithtx.BlockWithTxReceipts := block 48 [second].
Definition plain50 : blockswithtx.BlockWithTxReceipts := block 50 [transfer; second].

(** The header of height 50 arrives while the Flashbots API reports 48. *)
Definition reports48 : World := world [plain50] (inr 48) bundled.

(** The blocks 47 and 48 are pending. *)
Definition pending47and48 : Globals :=
  withBlockBacklog (<[47 := plain47]> {[ 48 := plain48 ]}) (initial true).

(** A transaction whose sender cannot be recovered. *)
Definition unsigned : types.Transaction :=
  {| types.Hash := "0x04"; types.GasPrice := 0; types.Data := ["a"%byte];
     types.To := Some "0xbeef"%string; types.signer := None |}.

(** The scan of the range [100, 100]. *)
Definition block100 : blockswithtx.BlockWithTxReceipts := block 100 [transfer].

(** A block whose only transaction is a failed 0-gas contract creation. *)
Definition block99 : blockswithtx.BlockWithTxReceipts := block 99 [creation].

(** The receiving routine takes the lock and receives the first block. *)
Definition receiverStarts : list checkBlockRange.Party :=
  [checkBlockRange.ReceiverMoves; checkBlockRange.PoolSends;
   checkBlockRange.PoolSends; checkBlockRange.ReceiverMoves].

(** The blocks 100, 99 and 50 in the order of their sending; [checkBlock]
    panics on block 99. *)
Definition panicking : list blockswithtx.BlockWithTxReceipts :=
  [block100; block99; plain50].

(** The receiving routine takes the lock first, checks block 100 and panics
    on block 99; the caller then closes the channel, takes the lock that the
    panic has released, and reports. *)
Definition panicThenReturn : list checkBlockRange.Party :=
  [checkBlockRange.ReceiverMoves; checkBlockRange.PoolSends;
   checkBlockRange.PoolSends; checkBlockRange.PoolSends;
   checkBlockRange.ReceiverMoves; checkBlockRange.ReceiverMoves;
   checkBlockRange.CallerMoves; checkBlockRange.CallerMoves;
   checkBlockRange.CallerMoves; checkBlockRange.CallerMoves].

(** The pool sends its block and the caller runs to its end before the
    receiving routine makes its first move. *)
Definition callerFirst : list checkBlockRange.Party :=
  [checkBlockRange.PoolSends; checkBlockRange.CallerMoves; checkBlockRange.CallerMoves; checkBlockRange.CallerMoves;
   checkBlockRange.CallerMoves].

(** The receiving routine takes the lock before the caller asks for it. *)
Definition receiverFirst : list checkBlockRange.Party :=
  [checkBlockRange.ReceiverMoves; checkBlockRange.PoolSends; checkBlockRange.ReceiverMoves; checkBlockRange.CallerMoves;
   checkBlockRange.CallerMoves; checkBlockRange.ReceiverMoves; checkBlockRange.CallerMoves; checkBlockRange.CallerMoves].

Definition record (n : Z) (i : nat) : FailedTx :=
  {| Hash := "0x01"; From := "0xf00d"; To := "0xbeef"; Block := n + Z.of_nat i;
     IsFlashbots := false |}.

End sample.

(** ** The history of failed transactions *)

Section history.

Lemma remember_length (history : list FailedTx) (failedTx : FailedTx) :
  (length history ≤ 100 → length (remember history failedTx) ≤ 100)%nat.
Proof.
  intros Hle. unfold remember.
  destruct (Nat.eqb_spec (length history) 100) as [E|E];
    rewrite length_app; [rewrite length_drop|]; simpl; lia.
Qed.

Lemma foldl_remember_snoc (h : list FailedTx) records failedTx :
  foldl remember h (records ++ [failedTx]) = remember (foldl remember h records) failedTx.
Proof. by rewrite foldl_app. Qed.

(** After any appends the history holds the last 100 of them. *)
Lemma history_is_last_100 (records : list FailedTx) :
  foldl remember [] records = drop (length records - 100) records.
Proof.
  induction records as [|failedTx records IH] using rev_ind; [done|].
  rewrite foldl_remember_snoc, IH. unfold remember.
  rewrite length_drop, length_app. simpl.
  destruct (Nat.eqb_spec (length records - (length records - 100)) 100) as [E|E].
  - rewrite drop_drop.
    replace (length records + 1 - 100)%nat with (length records - 100 + 1)%nat by lia.
    rewrite drop_app_le by lia. done.
  - replace (length records + 1 - 100)%nat with 0%nat by lia.
    replace (length records - 100)%nat with 0%nat by lia. done.
Qed.

Lemma remember_at_capacity (history : list FailedTx) (failedTx : FailedTx) :
  length history = 100%nat →
  ∃ oldest rest, history = oldest :: rest ∧ remember history failedTx = rest ++ [failedTx].
Proof.
  intros Hlen. destruct history as [|oldest rest]; [done|].
  exists oldest, rest. split; [done|].
  unfold remember. by rewrite Hlen.
Qed.

End history.

(** ** checkBlock *)

Section checkBlock.

Context (w : World) (b : blockswithtx.BlockWithTxReceipts).

(** The four ways the body of the loop ends. *)
Lemma checkTransaction_skips tx g :
  failedZeroGas b tx = false → checkTransaction w b tx g = Done Next g.
Proof.
  unfold failedZeroGas, checkTransaction.
  destruct (blockswithtx.TxReceipts b !! types.Hash tx) as [receipt|]; [|done].
  destruct (utils.IsBigIntZero (types.GasPrice tx) && (0 <? length (types.Data tx))%nat);
    [|done].
  simpl. by destruct (types.Status receipt =? 1).
Qed.

Lemma checkTransaction_query_fails tx err g :
  failedZeroGas b tx = true →
  IsFlashbotsTx w (blockswithtx.Block b) tx = inl err →
  checkTransaction w b tx g = Done Return (withOutput (LogError err) g).
Proof.
  unfold failedZeroGas, checkTransaction. intros Hf Herr.
  destruct (blockswithtx.TxReceipts b !! types.Hash tx) as [receipt|]; [|done].
  destruct (utils.IsBigIntZero (types.GasPrice tx) && (0 <? length (types.Data tx))%nat);
    [|done].
  simpl in Hf. destruct (types.Status receipt =? 1); [done|].
  by rewrite Herr.
Qed.

Lemma checkTransaction_nil_recipient tx isFlashbotsTx g :
  failedZeroGas b tx = true →
  IsFlashbotsTx w (blockswithtx.Block b) tx = inr isFlashbotsTx →
  types.To tx = None →
  checkTransaction w b tx g = Crashed NilDereference g.
Proof.
  unfold failedZeroGas, checkTransaction. intros Hf Hq Hto.
  destruct (blockswithtx.TxReceipts b !! types.Hash tx) as [receipt|]; [|done].
  destruct (utils.IsBigIntZero (types.GasPrice tx) && (0 <? length (types.Data tx))%nat);
    [|done].
  simpl in Hf. destruct (types.Status receipt =? 1); [done|].
  by rewrite Hq, Hto.
Qed.

Lemma checkTransaction_records tx isFlashbotsTx to g :
  failedZeroGas b tx = true →
  IsFlashbotsTx w (blockswithtx.Block b) tx = inr isFlashbotsTx →
  types.To tx = Some to →
  checkTransaction w b tx g = Done Next (withRecord b tx to isFlashbotsTx g).
Proof.
  unfold failedZeroGas, checkTransaction. intros Hf Hq Hto.
  destruct (blockswithtx.TxReceipts b !! types.Hash tx) as [receipt|]; [|done].
  destruct (utils.IsBigIntZero (types.GasPrice tx) && (0 <? length (types.Data tx))%nat);
    [|done].
  simpl in Hf. destruct (types.Status receipt =? 1); [done|].
  rewrite Hq, Hto. unfold withRecord, failureLine.
  by destruct isFlashbotsTx.
Qed.

(** Every outcome of the body is one of the four. *)
Lemma checkTransaction_cases tx g :
  (failedZeroGas b tx = false ∧ checkTransaction w b tx g = Done Next g) ∨
  (∃ err, failedZeroGas b tx = true ∧
          IsFlashbotsTx w (blockswithtx.Block b) tx = inl err ∧
          checkTransaction w b tx g = Done Return (withOutput (LogError err) g)) ∨
  (∃ isFlashbotsTx, failedZeroGas b tx = true ∧
          IsFlashbotsTx w (blockswithtx.Block b) tx = inr isFlashbotsTx ∧
          types.To tx = None ∧
          checkTransaction w b tx g = Crashed NilDereference g) ∨
  (∃ isFlashbotsTx to, failedZeroGas b tx = true ∧
          IsFlashbotsTx w (blockswithtx.Block b) tx = inr isFlashbotsTx ∧
          types.To tx = Some to ∧
          checkTransaction w b tx g = Done Next (withRecord b tx to isFlashbotsTx g)).
Proof.
  destruct (failedZeroGas b tx) eqn:Hf.
  - right.
    destruct (IsFlashbotsTx w (blockswithtx.Block b) tx) as [err|isFlashbotsTx] eqn:Hq.
    + left. exists err. eauto using checkTransaction_query_fails.
    + right. destruct (types.To tx) as [to|] eqn:Hto.
      * right. exists isFlashbotsTx, to. eauto using checkTransaction_records.
      * left. exists isFlashbotsTx. eauto using checkTransaction_nil_recipient.
  - left. eauto using checkTransaction_skips.
Qed.

Lemma forTransactions_cons tx rest g :
  forTransactions w b (tx :: rest) g
  = match checkTransaction w b tx g with
    | Done Next g' => forTransactions w b rest g'
    | Done Return g' => Done Return g'
    | Crashed c g' => Crashed c g'
    end.
Proof.
  simpl. unfold bind.
  by destruct (checkTransaction w b tx g) as [[] ?|].
Qed.

Lemma forTransactions_app pre post g :
  forTransactions w b (pre ++ post) g
  = match forTransactions w b pre g with
    | Done Next g' => forTransactions w b post g'
    | Done Return g' => Done Return g'
    | Crashed c g' => Crashed c g'
    end.
Proof.
  revert g. induction pre as [|tx pre IH]; intros g; [done|].
  rewrite <- app_comm_cons, !forTransactions_cons.
  destruct (checkTransaction w b tx g) as [[] g'|]; [apply IH|done..].
Qed.

(** The loop touches the history and the output only. *)
Lemma checkTransaction_frame tx g :
  let g' := globalsOf (checkTransaction w b tx g) in
  BlockBacklog g' = BlockBacklog g ∧ silent g' = silent g ∧
  isWatchMode g' = isWatchMode g.
Proof.
  destruct (checkTransaction_cases tx g)
    as [(_ & ->)|[(? & _ & _ & ->)|[(? & _ & _ & _ & ->)|(? & ? & _ & _ & _ & ->)]]];
    done.
Qed.

Lemma forTransactions_frame txs g :
  let g' := globalsOf (forTransactions w b txs g) in
  BlockBacklog g' = BlockBacklog g ∧ silent g' = silent g ∧
  isWatchMode g' = isWatchMode g.
Proof.
  revert g. induction txs as [|tx txs IH]; intros g; [done|].
  rewrite forTransactions_cons.
  pose proof (checkTransaction_frame tx g) as Hf.
  destruct (checkTransaction w b tx g) as [[] g'|]; simpl in *; [|done..].
  destruct (IH g') as (-> & -> & ->). done.
Qed.

(** A scan that reaches the end of [txs] has appended the records of
    [txs], in order. *)
Lemma forTransactions_history txs g g' :
  forTransactions w b txs g = Done Next g' →
  FailedTxHistory g' = foldl remember (FailedTxHistory g) (omap (recorded w b) txs).
Proof.
  revert g. induction txs as [|tx txs IH]; intros g; [by intros [= <-]|].
  rewrite forTransactions_cons.
  change (omap (recorded w b) (tx :: txs))
    with (match recorded w b tx with
          | Some failedTx => failedTx :: omap (recorded w b) txs
          | None => omap (recorded w b) txs
          end).
  unfold recorded at 1.
  destruct (checkTransaction_cases tx g)
    as [(Hf & ->)|[(? & Hf & Hq & ->)|[(? & Hf & Hq & Hto & ->)
        |(isF & to & Hf & Hq & Hto & ->)]]]; rewrite Hf; try done.
  - apply IH.
  - rewrite Hq, Hto. intros H. apply IH in H. done.
Qed.

(** Whatever the outcome, the history has only grown by appends. *)
Lemma forTransactions_appends txs g :
  ∃ more, FailedTxHistory (globalsOf (forTransactions w b txs g))
          = foldl remember (FailedTxHistory g) more.
Proof.
  revert g. induction txs as [|tx txs IH]; intros g; [by exists []|].
  rewrite forTransactions_cons.
  destruct (checkTransaction_cases tx g)
    as [(Hf & ->)|[(? & Hf & Hq & ->)|[(? & Hf & Hq & Hto & ->)
        |(isF & to & Hf & Hq & Hto & ->)]]]; try (by exists []).
  - apply IH.
  - destruct (IH (withRecord b tx to isF g)) as [more ->].
    by exists (recordOf b tx to isF :: more).
Qed.

Lemma checkBlock_unfold g :
  checkBlock w b g
  = match forTransactions w b (types.Transactions (blockswithtx.Block b))
            (announced b g) with
    | Done Next g' =>
      Done tt (withBlockBacklog (delete (backlogKey b) (BlockBacklog g')) g')
    | Done Return g' => Done tt g'
    | Crashed c g' => Crashed c g'
    end.
Proof.
  unfold checkBlock, announced, bind, get. destruct (silent g); simpl;
    by destruct (forTransactions w b _ _) as [[] ?|].
Qed.

Lemma announced_frame g :
  BlockBacklog (announced b g) = BlockBacklog g ∧
  FailedTxHistory (announced b g) = FailedTxHistory g ∧
  silent (announced b g) = silent g.
Proof. unfold announced. by destruct (silent g) eqn:E. Qed.

(** [checkBlock] leaves the backlog as it is or deletes the key of [b]. *)
Lemma checkBlock_backlog g :
  let g' := globalsOf (checkBlock w b g) in
  BlockBacklog g' = BlockBacklog g ∨
  BlockBacklog g' = delete (backlogKey b) (BlockBacklog g).
Proof.
  rewrite checkBlock_unfold.
  pose proof (forTransactions_frame (types.Transactions (blockswithtx.Block b))
                (announced b g)) as (Hb & _).
  destruct (announced_frame g) as (Ha & _). rewrite Ha in Hb.
  destruct (forTransactions w b _ _) as [[] g'|]; simpl in *; rewrite ?Hb; auto.
Qed.

Lemma checkBlock_silent g :
  silent (globalsOf (checkBlock w b g)) = silent g.
Proof.
  rewrite checkBlock_unfold.
  pose proof (forTransactions_frame (types.Transactions (blockswithtx.Block b))
                (announced b g)) as (_ & Hs & _).
  destruct (announced_frame g) as (_ & _ & Ha). rewrite Ha in Hs.
  destruct (forTransactions w b _ _) as [[] g'|]; simpl in *; done.
Qed.

Lemma checkBlock_appends g :
  ∃ more, FailedTxHistory (globalsOf (checkBlock w b g))
          = foldl remember (FailedTxHistory g) more.
Proof.
  rewrite checkBlock_unfold.
  destruct (forTransactions_appends (types.Transactions (blockswithtx.Block b))
              (announced b g)) as [more Hm].
  destruct (announced_frame g) as (_ & Ha & _). rewrite Ha in Hm.
  exists more. destruct (forTransactions w b _ _) as [[] g'|]; simpl in *; done.
Qed.

End checkBlock.

(** ** What a block leaves in the history *)

Lemma failedZeroGas_true b tx receipt :
  blockswithtx.TxReceipts b !! types.Hash tx = Some receipt →
  types.GasPrice tx = 0 → types.Data tx ≠ [] → types.Status receipt ≠ 1 →
  failedZeroGas b tx = true.
Proof.
  intros Hr Hg Hd Hs. unfold failedZeroGas, utils.IsBigIntZero. rewrite Hr, Hg.
  destruct (types.Data tx); [done|]. simpl.
  by destruct (Z.eqb_spec (types.Status receipt) 1).
Qed.

Lemma failedZeroGas_succeeded b tx receipt :
  blockswithtx.TxReceipts b !! types.Hash tx = Some receipt →
  types.Status receipt = 1 → failedZeroGas b tx = false.
Proof.
  intros Hr Hs. unfold failedZeroGas. rewrite Hr, Hs. simpl.
  apply andb_false_r.
Qed.

(** A stretch of transactions none of which is a failed 0-gas transaction
    changes nothing. *)
Lemma forTransactions_all_skipped w b txs g :
  Forall (λ tx, failedZeroGas b tx = false) txs →
  forTransactions w b txs g = Done Next g.
Proof.
  induction 1 as [|tx txs Hf _ IH]; [done|].
  by rewrite forTransactions_cons, checkTransaction_skips.
Qed.

Lemma Uint64_small (n : Z) : 0 ≤ n < 2 ^ 64 → big.Uint64 n = n.
Proof.
  intros Hn. unfold big.Uint64, big.low64.
  rewrite Z.abs_eq by lia. apply Z.mod_small. lia.
Qed.

Lemma Int64_small (n : Z) : 0 ≤ n < 2 ^ 63 → big.Int64 n = n.
Proof.
  intros Hn. unfold big.Int64, big.low64, big.to_int64.
  destruct (Z.ltb_spec n 0); [lia|].
  rewrite Z.abs_eq by lia.
  rewrite (Z.mod_small n) by lia. rewrite Z.mod_small by lia. lia.
Qed.

Lemma to_int64_range (v : Z) : - 2 ^ 63 ≤ big.to_int64 v < 2 ^ 63.
Proof.
  unfold big.to_int64.
  pose proof (Z.mod_pos_bound (v + 2 ^ 63) (2 ^ 64)). lia.
Qed.

Lemma to_int64_small (v : Z) : - 2 ^ 63 ≤ v < 2 ^ 63 → big.to_int64 v = v.
Proof. intros Hv. unfold big.to_int64. rewrite Z.mod_small by lia. lia. Qed.

Lemma Int64_range (x : Z) : - 2 ^ 63 ≤ big.Int64 x < 2 ^ 63.
Proof. unfold big.Int64. destruct (x <? 0); apply to_int64_range. Qed.

(** [Int64] leaves an [int64] as it is. *)
Lemma Int64_fixed (n : Z) : - 2 ^ 63 ≤ n < 2 ^ 63 → big.Int64 n = n.
Proof.
  intros Hn. destruct (Z.ltb_spec n 0) as [Hneg|Hpos]; [|by apply Int64_small; lia].
  destruct (decide (n = - 2 ^ 63)) as [->|Hne]; [by vm_compute|].
  unfold big.Int64, big.low64.
  destruct (Z.ltb_spec n 0); [|lia].
  rewrite Z.abs_neq by lia. rewrite (Z.mod_small (- n)) by lia.
  rewrite (to_int64_small (- n)) by lia.
  rewrite Z.opp_involutive. apply to_int64_small. lia.
Qed.

(** A block whose only failed 0-gas transaction has a recipient leaves
    exactly the record of that transaction, with the height of the block and
    the answer of the Flashbots API, and is deleted from the backlog. *)
Lemma checkBlock_one_failed_tx w b pre tx post to isFlashbotsTx g :
  types.Transactions (blockswithtx.Block b) = pre ++ tx :: post →
  Forall (λ t, failedZeroGas b t = false) (pre ++ post) →
  failedZeroGas b tx = true →
  IsFlashbotsTx w (blockswithtx.Block b) tx = inr isFlashbotsTx →
  types.To tx = Some to →
  0 ≤ types.Number (blockswithtx.Block b) < 2 ^ 64 →
  ∃ g', checkBlock w b g = Done tt g' ∧
        FailedTxHistory g'
        = remember (FailedTxHistory g) (recordOf b tx to isFlashbotsTx) ∧
        Block (recordOf b tx to isFlashbotsTx) = types.Number (blockswithtx.Block b) ∧
        IsFlashbots (recordOf b tx to isFlashbotsTx) = isFlashbotsTx.
Proof.
  intros Htxs Hothers Hf Hq Hto Hn.
  apply Forall_app in Hothers as [Hpre Hpost].
  rewrite checkBlock_unfold, Htxs, forTransactions_app.
  rewrite forTransactions_all_skipped by done.
  rewrite forTransactions_cons, (checkTransaction_records _ _ _ _ to) by done.
  rewrite forTransactions_all_skipped by done.
  eexists. split; [done|]. simpl.
  destruct (announced_frame b g) as (_ & -> & _).
  split; [done|]. split; [|done]. by apply Uint64_small.
Qed.

(** C8. A transaction with gas price zero and data whose receipt has status
    1 leaves the globals, the history among them, as they are; the scan of a
    block goes on as if the transaction were not in it. *)
Theorem successful_tx_leaves_no_record w b tx receipt pre post g :
  blockswithtx.TxReceipts b !! types.Hash tx = Some receipt →
  types.GasPrice tx = 0 →
  types.Data tx ≠ [] →
  types.Status receipt = 1 →
  checkTransaction w b tx g = Done Next g ∧
  forTransactions w b (pre ++ tx :: post) g = forTransactions w b (pre ++ post) g.
Proof.
  intros Hr _ _ Hs.
  pose proof (failedZeroGas_succeeded b tx receipt Hr Hs) as Hf.
  split; [by apply checkTransaction_skips|].
  rewrite !forTransactions_app.
  destruct (forTransactions w b pre g) as [[] g'|]; [|done..].
  by rewrite forTransactions_cons, checkTransaction_skips.
Qed.

Lemma successful_tx_leaves_no_record_witness :
  let b := sample.succeeded 7 [sample.transfer] in
  let w := sample.world [] (inr 7) sample.bundled in
  checkTransaction w b sample.transfer (initial true) = Done Next (initial true) ∧
  forTransactions w b ([] ++ sample.transfer :: []) (initial true)
  = forTransactions w b ([] ++ []) (initial true).
Proof.
  apply (successful_tx_leaves_no_record _ _ _ {| types.Status := 1 |});
    [by vm_compute|reflexivity|discriminate|reflexivity].
Defined.

(** C2. The block 7 whose single transaction has gas price zero, data, a
    receipt with status 0 and no recipient: the Flashbots API answers, and
    [checkBlock] stops with a nil dereference instead of leaving a record. *)
Theorem checkBlock_single_creation_panics :
  let b := sample.block 7 [sample.creation] in
  let w := sample.world [] (inr 7) sample.bundled in
  failedZeroGas b sample.creation = true ∧
  IsFlashbotsTx w (blockswithtx.Block b) sample.creation = inr true ∧
  checkBlock w b (initial true) = Crashed NilDereference (initial true).
Proof. by vm_compute. Qed.

(** C9. When the scan of a block reaches a transaction with gas price zero,
    data, a receipt whose status is not 1 and no recipient, and the
    Flashbots API answers the bundle query, the body of the loop stops with
    a nil dereference and so does [checkBlock]: no record is appended, the
    later transactions are not scanned and the block stays in the backlog. *)
Theorem nil_recipient_crashes_checkBlock w b pre tx post receipt isFlashbotsTx g g1 :
  types.Transactions (blockswithtx.Block b) = pre ++ tx :: post →
  forTransactions w b pre (announced b g) = Done Next g1 →
  blockswithtx.TxReceipts b !! types.Hash tx = Some receipt →
  types.GasPrice tx = 0 →
  types.Data tx ≠ [] →
  types.Status receipt ≠ 1 →
  types.To tx = None →
  IsFlashbotsTx w (blockswithtx.Block b) tx = inr isFlashbotsTx →
  checkTransaction w b tx g1 = Crashed NilDereference g1 ∧
  checkBlock w b g = Crashed NilDereference g1 ∧
  BlockBacklog g1 = BlockBacklog g.
Proof.
  intros Htxs Hpre Hr Hg Hd Hs Hto Hq.
  pose proof (failedZeroGas_true b tx receipt Hr Hg Hd Hs) as Hf.
  pose proof (checkTransaction_nil_recipient w b tx isFlashbotsTx g1 Hf Hq Hto) as Hc.
  split; [done|]. split.
  - by rewrite checkBlock_unfold, Htxs, forTransactions_app, Hpre,
      forTransactions_cons, Hc.
  - pose proof (forTransactions_frame w b pre (announced b g)) as (Hb & _).
    rewrite Hpre in Hb. simpl in Hb. rewrite Hb.
    by destruct (announced_frame b g) as (-> & _).
Qed.

Lemma nil_recipient_crashes_checkBlock_witness :
  let b := sample.block 7 [sample.transfer; sample.creation; sample.second] in
  let w := sample.world [] (inr 7) sample.bundled in
  let g1 := withRecord b sample.transfer "0xbeef" true (initial true) in
  checkTransaction w b sample.creation g1 = Crashed NilDereference g1 ∧
  checkBlock w b (initial true) = Crashed NilDereference g1 ∧
  BlockBacklog g1 = BlockBacklog (initial true).
Proof.
  apply (nil_recipient_crashes_checkBlock _ _ [sample.transfer] sample.creation
           [sample.second] {| types.Status := 0 |} true);
    [reflexivity|by vm_compute|by vm_compute|reflexivity|discriminate|discriminate
    |reflexivity|reflexivity].
Defined.

(** ** A failing bundle query *)

Lemma checkBlock_query_fails w b pre tx post err g g1 :
  types.Transactions (blockswithtx.Block b) = pre ++ tx :: post →
  forTransactions w b pre (announced b g) = Done Next g1 →
  failedZeroGas b tx = true →
  IsFlashbotsTx w (blockswithtx.Block b) tx = inl err →
  checkBlock w b g = Done tt (withOutput (LogError err) g1) ∧
  BlockBacklog g1 = BlockBacklog g ∧
  FailedTxHistory g1 = foldl remember (FailedTxHistory g) (omap (recorded w b) pre).
Proof.
  intros Htxs Hpre Hf Hq. split; [|split].
  - by rewrite checkBlock_unfold, Htxs, forTransactions_app, Hpre,
      forTransactions_cons, (checkTransaction_query_fails _ _ _ err).
  - pose proof (forTransactions_frame w b pre (announced b g)) as (Hb & _).
    rewrite Hpre in Hb. simpl in Hb. rewrite Hb.
    by destruct (announced_frame b g) as (-> & _).
  - rewrite (forTransactions_history _ _ _ _ _ Hpre).
    by destruct (announced_frame b g) as (_ & -> & _).
Qed.

(** The walk over the backlog checks a pending block that is due. *)
Lemma forBacklog_due w latest height x rest b g :
  BlockBacklog g !! height = Some b → height ≤ latest →
  forBacklog w latest ((height, x) :: rest) g
  = (checkBlock w b ;; forBacklog w latest rest) g.
Proof.
  intros Hb Hle. simpl. unfold bind at 1, get at 1. rewrite Hb.
  by destruct (Z.leb_spec height latest); [|lia].
Qed.

(** C5. When the scan of a block reaches a failed 0-gas transaction and the
    bundle query for it fails, [checkBlock] returns normally: the error is
    logged, the history holds the records of the earlier transactions and
    nothing for this or any later transaction, and the walk over the backlog
    goes on with the other blocks. *)
Theorem bundle_query_failure_abandons_block w b pre tx post receipt err g g1 :
  types.Transactions (blockswithtx.Block b) = pre ++ tx :: post →
  forTransactions w b pre (announced b g) = Done Next g1 →
  blockswithtx.TxReceipts b !! types.Hash tx = Some receipt →
  types.GasPrice tx = 0 →
  types.Data tx ≠ [] →
  types.Status receipt ≠ 1 →
  IsFlashbotsTx w (blockswithtx.Block b) tx = inl err →
  let g' := withOutput (LogError err) g1 in
  checkBlock w b g = Done tt g' ∧
  output g' = output g1 ++ [LogError err] ∧
  FailedTxHistory g' = foldl remember (FailedTxHistory g) (omap (recorded w b) pre) ∧
  recorded w b tx = None ∧
  (∀ latest height x rest,
     BlockBacklog g !! height = Some b → height ≤ latest →
     forBacklog w latest ((height, x) :: rest) g = forBacklog w latest rest g').
Proof.
  intros Htxs Hpre Hr Hg Hd Hs Hq g'.
  pose proof (failedZeroGas_true b tx receipt Hr Hg Hd Hs) as Hf.
  destruct (checkBlock_query_fails w b pre tx post err g g1) as (Hc & Hb & Hh); try done.
  split; [done|]. split; [done|]. split; [done|]. split.
  - unfold recorded. by rewrite Hf, Hq.
  - intros latest height x rest Hpending Hle.
    rewrite (forBacklog_due _ _ _ _ _ b) by done.
    unfold bind. by rewrite Hc.
Qed.

Lemma bundle_query_failure_abandons_block_witness :
  let b := sample.block 5 [sample.transfer; sample.second; sample.transfer] in
  let w := sample.world [b] (inr 5) (sample.failsAt "0x02") in
  let g := withBlockBacklog {[ 5 := b ]} (initial true) in
  let g' := withOutput (LogError "timeout") (withRecord b sample.transfer "0xbeef" true g) in
  checkBlock w b g = Done tt g' ∧
  FailedTxHistory g' = [recordOf b sample.transfer "0xbeef" true] ∧
  BlockBacklog g' !! 5 = Some b.
Proof.
  destruct (bundle_query_failure_abandons_block
              (sample.world [sample.block 5 [sample.transfer; sample.second; sample.transfer]]
                 (inr 5) (sample.failsAt "0x02"))
              (sample.block 5 [sample.transfer; sample.second; sample.transfer])
              [sample.transfer] sample.second [sample.transfer]
              {| types.Status := 0 |} "timeout"%string
              (withBlockBacklog
                 {[ 5 := sample.block 5 [sample.transfer; sample.second; sample.transfer] ]}
                 (initial true))
              (withRecord (sample.block 5 [sample.transfer; sample.second; sample.transfer])
                 sample.transfer "0xbeef" true
                 (withBlockBacklog
                    {[ 5 := sample.block 5 [sample.transfer; sample.second; sample.transfer] ]}
                    (initial true))))
    as (Hc & _ & Hh & _);
    [reflexivity|by vm_compute|by vm_compute|reflexivity|discriminate|discriminate
    |reflexivity|].
  split; [exact Hc|]. split; [exact Hh|]. by vm_compute.
Defined.

(** ** A block that stays pending is scanned again *)





(** ** The backlog of [watch] *)

Section backlog.

Implicit Types (g : Globals) (w : World) (header : types.Header).

Lemma onHeader_unfold w header g :
  onHeader w header g
  = match queueBlock w header g with
    | Done _ g1 => processBacklog w header g1
    | Crashed c g1 => Crashed c g1
    end.
Proof. reflexivity. Qed.

Lemma queueBlock_cases w header g :
  (∃ err, GetBlockWithTxReceipts w (big.Int64 (types.HeaderNumber header)) = inl err ∧
          queueBlock w header g = Crashed (PerrorPanic err) g) ∨
  (∃ b g1, GetBlockWithTxReceipts w (big.Int64 (types.HeaderNumber header)) = inr b ∧
           queueBlock w header g = Done tt g1 ∧
           BlockBacklog g1
           = <[big.Int64 (types.HeaderNumber header) := b]> (BlockBacklog g) ∧
           FailedTxHistory g1 = FailedTxHistory g).
Proof.
  unfold queueBlock.
  destruct (GetBlockWithTxReceipts w _) as [err|b]; [left; eauto|right].
  exists b. unfold bind, get. destruct (silent g); simpl; eauto.
Qed.

Lemma backlogKeyed_same g g' :
  BlockBacklog g' = BlockBacklog g → backlogKeyed g → backlogKeyed g'.
Proof. unfold backlogKeyed. by intros ->. Qed.

Lemma backlogKeyed_delete g g' k :
  BlockBacklog g' = delete k (BlockBacklog g) → backlogKeyed g → backlogKeyed g'.
Proof.
  unfold backlogKeyed. intros -> Hk height b Hl.
  apply lookup_delete_Some in Hl as [_ Hl]. by apply Hk.
Qed.

Lemma checkBlock_keyed w b g :
  backlogKeyed g → backlogKeyed (globalsOf (checkBlock w b g)).
Proof.
  intros Hk. destruct (checkBlock_backlog w b g) as [H|H];
    eauto using backlogKeyed_same, backlogKeyed_delete.
Qed.

(** One turn of the walk over the backlog. *)
Lemma forBacklog_cons w latest height x rest g :
  forBacklog w latest ((height, x) :: rest) g
  = match BlockBacklog g !! height with
    | Some b =>
      if height <=? latest
      then match checkBlock w b g with
           | Done _ g' => forBacklog w latest rest g'
           | Crashed c g' => Crashed c g'
           end
      else forBacklog w latest rest g
    | None => forBacklog w latest rest g
    end.
Proof.
  simpl. unfold bind at 1, get at 1.
  destruct (BlockBacklog g !! height) as [b|]; [|done].
  destruct (height <=? latest); [|done].
  unfold bind. by destruct (checkBlock w b g).
Qed.

(** The walk only deletes, and only heights up to [latest]. *)
Lemma forBacklog_removes w latest entries g :
  backlogKeyed g →
  let g' := globalsOf (forBacklog w latest entries g) in
  backlogKeyed g' ∧
  dom (BlockBacklog g') ⊆ dom (BlockBacklog g) ∧
  ∀ h, h ∈ dom (BlockBacklog g) → h ∉ dom (BlockBacklog g') → h ≤ latest.
Proof.
  revert g. induction entries as [|[height x] rest IH]; intros g Hk.
  { simpl. split; [done|]. split; [done|]. intros h ? ?. done. }
  rewrite forBacklog_cons.
  destruct (BlockBacklog g !! height) as [b|] eqn:Hl; [|by apply IH].
  destruct (Z.leb_spec height latest) as [Hle|_]; [|by apply IH].
  pose proof (checkBlock_keyed w b g Hk) as Hk1.
  assert (Hstep : dom (BlockBacklog (globalsOf (checkBlock w b g)))
                  ⊆ dom (BlockBacklog g) ∧
                  ∀ h, h ∈ dom (BlockBacklog g) →
                       h ∉ dom (BlockBacklog (globalsOf (checkBlock w b g))) →
                       h ≤ latest).
  { destruct (checkBlock_backlog w b g) as [->| ->]; [set_solver|].
    unfold backlogKey. rewrite (Hk _ _ Hl), dom_delete_L.
    split; [set_solver|]. intros h Hin Hout.
    destruct (decide (h = height)) as [->|]; [done|]. set_solver. }
  destruct Hstep as [Hsub Hrem].
  destruct (checkBlock w b g) as [[] g1|c g1]; simpl in *; [|done].
  destruct (IH g1 Hk1) as (Hk2 & Hsub2 & Hrem2).
  split; [done|]. split; [set_solver|].
  intros h Hin Hout.
  destruct (decide (h ∈ dom (BlockBacklog g1))); [by apply Hrem2|by apply Hrem].
Qed.

Lemma processBacklog_removes w header g :
  backlogKeyed g →
  let g' := globalsOf (processBacklog w header g) in
  backlogKeyed g' ∧
  dom (BlockBacklog g') ⊆ dom (BlockBacklog g) ∧
  ∀ h, h ∈ dom (BlockBacklog g) → h ∉ dom (BlockBacklog g') →
       ∃ latest, GetFlashbotsBlock w (big.Int64 (types.HeaderNumber header))
                 = inr latest ∧ h ≤ latest.
Proof.
  intros Hk. unfold processBacklog.
  destruct (GetFlashbotsBlock w _) as [err|latest].
  - simpl. split; [done|]. split; [done|]. intros h ? ?. done.
  - unfold bind, get.
    destruct (forBacklog_removes w latest (rangeOrder w (BlockBacklog g)) g Hk)
      as (Hk' & Hsub & Hrem).
    split; [done|]. split; [done|]. intros h Hin Hout. exists latest. eauto.
Qed.

(** Without the assumption on the keys the walk still only deletes. *)
Lemma forBacklog_shrinks w latest entries g :
  dom (BlockBacklog (globalsOf (forBacklog w latest entries g)))
  ⊆ dom (BlockBacklog g).
Proof.
  revert g. induction entries as [|[height x] rest IH]; intros g; [done|].
  rewrite forBacklog_cons.
  destruct (BlockBacklog g !! height) as [b|]; [|by apply IH].
  destruct (height <=? latest); [|by apply IH].
  assert (dom (BlockBacklog (globalsOf (checkBlock w b g))) ⊆ dom (BlockBacklog g))
    as Hsub.
  { destruct (checkBlock_backlog w b g) as [->| ->]; [done|].
    rewrite dom_delete_L. set_solver. }
  destruct (checkBlock w b g) as [[] g1|c g1]; simpl in *; [|done].
  specialize (IH g1). set_solver.
Qed.

Lemma processBacklog_shrinks w header g :
  dom (BlockBacklog (globalsOf (processBacklog w header g))) ⊆ dom (BlockBacklog g).
Proof.
  unfold processBacklog. destruct (GetFlashbotsBlock w _); [done|].
  apply forBacklog_shrinks.
Qed.

Lemma queueBlock_keyed w header g g1 :
  nodeAnswersHeight (NewHeader header w) → backlogKeyed g →
  queueBlock w header g = Done tt g1 → backlogKeyed g1.
Proof.
  intros Hnode Hk Hq.
  destruct (queueBlock_cases w header g)
    as [(err & _ & Hc)|(b & g1' & Hb & Hd & Hm & _)]; [congruence|].
  rewrite Hq in Hd. injection Hd as <-.
  intros height b' Hl. rewrite Hm in Hl.
  apply lookup_insert_Some in Hl as [[<- <-]|[_ Hl]]; [by apply Hnode|by apply Hk].
Qed.

Lemma onHeader_keyed w header g g' :
  nodeAnswersHeight (NewHeader header w) → backlogKeyed g →
  onHeader w header g = Done tt g' → backlogKeyed g'.
Proof.
  intros Hnode Hk. rewrite onHeader_unfold.
  destruct (queueBlock w header g) as [[] g1|] eqn:Hq; [|done].
  intros Hp. pose proof (queueBlock_keyed w header g g1 Hnode Hk Hq) as Hk1.
  destruct (processBacklog_removes w header g1 Hk1) as (Hk' & _).
  by rewrite Hp in Hk'.
Qed.

(** Every cycle starts with a backlog keyed by the heights of its blocks. *)
Lemma cycles_keyed events g w header g' :
  Forall nodeAnswersHeight events → backlogKeyed g →
  (w, header, g') ∈ cycles events g →
  backlogKeyed g' ∧ nodeAnswersHeight (NewHeader header w).
Proof.
  intros Hnode. revert g. induction Hnode as [|e events He _ IH]; intros g Hk Hin.
  { by apply elem_of_nil in Hin. }
  destruct e as [err|header0 w0]; [by apply elem_of_nil in Hin|].
  simpl in Hin. apply elem_of_cons in Hin as [[= -> -> ->]|Hin]; [done|].
  destruct (onHeader w0 header0 g) as [[] g1|] eqn:Hon;
    [|by apply elem_of_nil in Hin].
  eapply IH; [|done]. eauto using onHeader_keyed.
Qed.

(** A height is removed by a cycle only if the Flashbots API has answered
    in that cycle with a latest block at or above it. *)
Lemma removedBy_confirmed w header g h :
  nodeAnswersHeight (NewHeader header w) → backlogKeyed g →
  h ∈ removedBy w header g →
  ∃ latest, GetFlashbotsBlock w (big.Int64 (types.HeaderNumber header)) = inr latest ∧
            h ≤ latest.
Proof.
  intros Hnode Hk. unfold removedBy.
  destruct (queueBlock w header g) as [[] g1|] eqn:Hq; [|set_solver].
  pose proof (queueBlock_keyed w header g g1 Hnode Hk Hq) as Hk1.
  destruct (processBacklog_removes w header g1 Hk1) as (_ & _ & Hrem).
  intros [Hin Hout]%elem_of_difference. by apply Hrem.
Qed.

Lemma onHeader_dom w header g :
  dom (BlockBacklog (globalsOf (onHeader w header g)))
  ⊆ {[big.Int64 (types.HeaderNumber header)]} ∪ dom (BlockBacklog g).
Proof.
  rewrite onHeader_unfold.
  destruct (queueBlock_cases w header g)
    as [(err & _ & ->)|(b & g1 & _ & -> & Hm & _)]; [set_solver|].
  pose proof (processBacklog_shrinks w header g1) as Hsub.
  rewrite Hm, dom_insert_L in Hsub. done.
Qed.

Lemma removedBy_dom w header g :
  removedBy w header g
  ⊆ {[big.Int64 (types.HeaderNumber header)]} ∪ dom (BlockBacklog g).
Proof.
  unfold removedBy.
  destruct (queueBlock_cases w header g)
    as [(err & _ & ->)|(b & g1 & _ & -> & Hm & _)]; [set_solver|].
  rewrite Hm, dom_insert_L. set_solver.
Qed.

Lemma removedBy_gone w header g g' h :
  onHeader w header g = Done tt g' → h ∈ removedBy w header g →
  h ∉ dom (BlockBacklog g').
Proof.
  rewrite onHeader_unfold. unfold removedBy.
  destruct (queueBlock w header g) as [[] g1|]; [|done].
  intros ->. simpl. set_solver.
Qed.

(** A height that is neither pending nor announced later is not removed. *)
Lemma removals_absent h events g :
  h ∉ dom (BlockBacklog g) → h ∉ headerHeights events →
  removals h events g = 0%nat.
Proof.
  revert g. induction events as [|[err|header w] events IH]; intros g Hdom Hheads;
    [done..|].
  simpl in Hheads. apply not_elem_of_cons in Hheads as [Hne Hheads].
  simpl. rewrite decide_False.
  2: { intros Hin%removedBy_dom. set_solver. }
  pose proof (onHeader_dom w header g) as Hsub.
  destruct (onHeader w header g) as [[] g'|]; [|done].
  simpl in Hsub. apply IH; [set_solver|done].
Qed.

(** When no height is announced twice, a height is removed at most once. *)
Lemma removals_at_most_once h events g :
  NoDup (headerHeights events) →
  (∀ k, k ∈ dom (BlockBacklog g) → k ∉ headerHeights events) →
  (removals h events g ≤ 1)%nat.
Proof.
  revert g. induction events as [|[err|header w] events IH]; intros g Hnd Hdisj;
    [simpl; lia..|].
  simpl in Hnd. apply NoDup_cons in Hnd as [Hfresh Hnd].
  simpl.
  pose proof (onHeader_dom w header g) as Hsub.
  assert (Hdisj' : ∀ g', onHeader w header g = Done tt g' →
            ∀ k, k ∈ dom (BlockBacklog g') → k ∉ headerHeights events).
  { intros g' Hon k Hk. rewrite Hon in Hsub. simpl in Hsub.
    apply Hsub in Hk. apply elem_of_union in Hk as [->%elem_of_singleton|Hk]; [done|].
    specialize (Hdisj k Hk). simpl in Hdisj. set_solver. }
  destruct (decide (h ∈ removedBy w header g)) as [Hrem|Hkept].
  - destruct (onHeader w header g) as [[] g'|] eqn:Hon; [|lia].
    rewrite removals_absent; [lia| |].
    + by eapply removedBy_gone.
    + apply removedBy_dom in Hrem.
      apply elem_of_union in Hrem as [->%elem_of_singleton|Hk]; [done|].
      specialize (Hdisj h Hk). simpl in Hdisj. set_solver.
  - destruct (onHeader w header g) as [[] g'|] eqn:Hon; [|lia].
    specialize (IH g' Hnd (Hdisj' g' eq_refl)). lia.
Qed.

End backlog.

(** ** The history is only ever appended to *)

Lemma foldl_remember_bounded (history records : list FailedTx) :
  (length history ≤ 100 → length (foldl remember history records) ≤ 100)%nat.
Proof.
  revert history. induction records as [|r records IH]; intros history Hle; [done|].
  simpl. apply IH. by apply remember_length.
Qed.

Lemma forBacklog_appends w latest entries g :
  ∃ more, FailedTxHistory (globalsOf (forBacklog w latest entries g))
          = foldl remember (FailedTxHistory g) more.
Proof.
  revert g. induction entries as [|[height x] rest IH]; intros g; [by exists []|].
  rewrite forBacklog_cons.
  destruct (BlockBacklog g !! height) as [b|]; [|by apply IH].
  destruct (height <=? latest); [|by apply IH].
  destruct (checkBlock_appends w b g) as [more Hm].
  destruct (checkBlock w b g) as [[] g1|c g1]; simpl in *; [|by exists more].
  destruct (IH g1) as [more' ->]. exists (more ++ more').
  by rewrite Hm, foldl_app.
Qed.

Lemma onHeader_appends w header g :
  ∃ more, FailedTxHistory (globalsOf (onHeader w header g))
          = foldl remember (FailedTxHistory g) more.
Proof.
  rewrite onHeader_unfold.
  destruct (queueBlock_cases w header g)
    as [(err & _ & ->)|(b & g1 & _ & -> & _ & <-)]; [by exists []|].
  unfold processBacklog. destruct (GetFlashbotsBlock w _); [by exists []|].
  apply forBacklog_appends.
Qed.

Lemma watchLoop_appends events g :
  ∃ more, FailedTxHistory (globalsOf (watchLoop events g))
          = foldl remember (FailedTxHistory g) more.
Proof.
  revert g. induction events as [|[err|header w] events IH]; intros g;
    [by exists []..|].
  simpl. unfold bind.
  destruct (onHeader_appends w header g) as [more Hm].
  destruct (onHeader w header g) as [[] g1|c g1]; simpl in *; [|by exists more].
  destruct (IH g1) as [more' ->]. exists (more ++ more').
  by rewrite Hm, foldl_app.
Qed.

(** C1. After every sequence of appends the history has at most 100 records
    and holds exactly the last 100 records appended, in the order of their
    insertion; an append to a history of 100 records drops its first
    (oldest) record and nothing else, and puts the new record last; and
    [watch] changes the history by such appends only, so that its history
    never has more than 100 records. *)
Theorem FailedTxHistory_bounded_fifo (records : list FailedTx) (failedTx : FailedTx)
    (events : list Event) (quiet : bool) :
  let history := foldl remember (FailedTxHistory (initial quiet)) records in
  (length history ≤ 100)%nat ∧
  history = drop (length records - 100) records ∧
  (length history = 100%nat →
   ∃ oldest rest, history = oldest :: rest ∧
                  remember history failedTx = rest ++ [failedTx]) ∧
  (length (FailedTxHistory (globalsOf (watchLoop events (initial quiet)))) ≤ 100)%nat.
Proof.
  simpl. split_and!.
  - rewrite history_is_last_100, length_drop. lia.
  - apply history_is_last_100.
  - apply remember_at_capacity.
  - destruct (watchLoop_appends events (initial quiet)) as [more ->].
    apply foldl_remember_bounded. simpl. lia.
Qed.

Lemma FailedTxHistory_bounded_fifo_witness :
  let history := foldl remember [] (sample.record 0 <$> seq 0 100) in
  ∃ oldest rest,
    history = oldest :: rest ∧
    remember history (sample.record 0 100) = rest ++ [sample.record 0 100].
Proof.
  apply (FailedTxHistory_bounded_fifo (sample.record 0 <$> seq 0 100)
           (sample.record 0 100) [] true).
  vm_compute. reflexivity.
Defined.

Lemma sample_nodeAnswersHeight blocks latest bundled n :
  nodeAnswersHeight
    (NewHeader (sample.header n) (sample.world blocks latest bundled)).
Proof.
  intros b. simpl.
  destruct (list_find _ blocks) as [[i b']|] eqn:Hfind; [|done].
  intros Heq. injection Heq as <-. apply list_find_Some in Hfind as (_ & Hn & _).
  rewrite Hn. apply Int64_fixed, Int64_range.
Qed.

(** C3, as stated, fails: when the header of height 5 arrives twice, the
    height 5 is queued twice and removed from the backlog twice. *)
Lemma height_removed_twice :
  Forall nodeAnswersHeight sample.sameHeightTwice ∧
  removals 5 sample.sameHeightTwice (initial true) = 2%nat.
Proof.
  split; [|by vm_compute].
  repeat constructor; apply sample_nodeAnswersHeight.
Qed.

(** While the query for the latest block keeps failing, nothing is removed,
    however long [watch] runs. *)
Lemma unconfirmed_never_removed h events g :
  (∀ header w, NewHeader header w ∈ events →
     ∃ err, GetFlashbotsBlock w (big.Int64 (types.HeaderNumber header)) = inl err) →
  removals h events g = 0%nat.
Proof.
  revert g. induction events as [|[err|header w] events IH]; intros g Hfail; [done..|].
  assert (Hrest : ∀ header' w', NewHeader header' w' ∈ events →
            ∃ err, GetFlashbotsBlock w' (big.Int64 (types.HeaderNumber header')) = inl err)
    by (intros; apply Hfail; by right).
  destruct (Hfail header w) as [err Herr]; [by left|].
  simpl.
  assert (Hnone : removedBy w header g = ∅).
  { unfold removedBy. destruct (queueBlock w header g) as [[] g1|]; [|done].
    unfold processBacklog. rewrite Herr. simpl. set_solver. }
  rewrite Hnone, decide_False by set_solver.
  destruct (onHeader w header g) as [[] g'|]; [|done].
  by apply IH.
Qed.

Lemma announcements_cons h header w events :
  announcements h (NewHeader header w :: events)
  = ((if decide (big.Int64 (types.HeaderNumber header) = h) then 1 else 0)
     + announcements h events)%nat.
Proof.
  unfold announcements. simpl. rewrite filter_cons. by case_decide.
Qed.

Lemma announcements_zero h events :
  announcements h events = 0%nat → h ∉ headerHeights events.
Proof.
  unfold announcements. intros Hlen Hin.
  assert (h ∈ filter (λ k, k = h) (headerHeights events)) as Hf
    by by apply list_elem_of_filter.
  destruct (filter (λ k, k = h) (headerHeights events)); [|done].
  by apply elem_of_nil in Hf.
Qed.

(** A height that at most one header announces, and that is not pending if
    a header is still to announce it, is removed at most once, whatever the
    other headers announce. *)
Lemma removals_announced_once h events g :
  (announcements h events ≤ 1)%nat →
  (h ∈ dom (BlockBacklog g) → h ∉ headerHeights events) →
  (removals h events g ≤ 1)%nat.
Proof.
  revert g. induction events as [|[err|header w] events IH]; intros g Honce Hpending;
    [simpl; lia..|].
  rewrite announcements_cons in Honce.
  assert (Hrest : h ∈ {[big.Int64 (types.HeaderNumber header)]} ∪ dom (BlockBacklog g) →
                  h ∉ headerHeights events).
  { intros [Heq%elem_of_singleton|Hin]%elem_of_union.
    - apply announcements_zero. rewrite decide_True in Honce by done. lia.
    - specialize (Hpending Hin). simpl in Hpending. set_solver. }
  simpl.
  pose proof (onHeader_dom w header g) as Hsub.
  destruct (decide (h ∈ removedBy w header g)) as [Hrem|Hkept].
  - destruct (onHeader w header g) as [[] g'|] eqn:Hon; [|lia].
    rewrite removals_absent; [lia| |].
    + by eapply removedBy_gone.
    + apply Hrest. by apply (removedBy_dom w header g).
  - destruct (onHeader w header g) as [[] g'|] eqn:Hon; [|lia].
    simpl in Hsub.
    assert ((removals h events g' ≤ 1)%nat); [|lia].
    apply IH; [case_decide; lia|].
    intros Hin. apply Hrest. set_solver.
Qed.

(** C3, amended.  The node answering each request with the block of the
    requested height: in every cycle of [watch], a height is removed from
    the backlog only if the Flashbots API has answered in that cycle with a
    latest block number at or above it; and every height that at most one
    header announces is removed at most once, whatever heights the other
    headers announce and however often. *)
Theorem removal_confirmed_and_unique (events : list Event) (quiet : bool) :
  Forall nodeAnswersHeight events →
  (∀ w header g h,
     (w, header, g) ∈ cycles events (initial quiet) →
     h ∈ removedBy w header g →
     ∃ latest,
       GetFlashbotsBlock w (big.Int64 (types.HeaderNumber header)) = inr latest ∧
       h ≤ latest) ∧
  (∀ h, (announcements h events ≤ 1)%nat →
        (removals h events (initial quiet) ≤ 1)%nat).
Proof.
  intros Hnode. split.
  - intros w header g h Hcycle Hrem.
    destruct (cycles_keyed events (initial quiet) w header g Hnode) as [Hk Hw];
      [by intros height b Hl|done|].
    by apply removedBy_confirmed with g.
  - intros h Honce. apply removals_announced_once; [done|].
    simpl. set_solver.
Qed.

Lemma removal_confirmed_and_unique_witness :
  (∀ w header g h,
     (w, header, g) ∈ cycles sample.twiceThenSix (initial true) →
     h ∈ removedBy w header g →
     ∃ latest,
       GetFlashbotsBlock w (big.Int64 (types.HeaderNumber header)) = inr latest ∧
       h ≤ latest) ∧
  announcements 5 sample.twiceThenSix = 2%nat ∧
  announcements 6 sample.twiceThenSix = 1%nat ∧
  (removals 6 sample.twiceThenSix (initial true) ≤ 1)%nat ∧
  removals 6 sample.twiceThenSix (initial true) = 1%nat.
Proof.
  destruct (removal_confirmed_and_unique sample.twiceThenSix true) as [Hsafe Honce].
  { repeat constructor; apply sample_nodeAnswersHeight. }
  split; [exact Hsafe|]. split; [by vm_compute|]. split; [by vm_compute|].
  split; [|by vm_compute].
  apply Honce. by vm_compute.
Defined.

(** C4, as stated, fails: the header of height 5 arrives at an empty
    backlog and the query for the latest block fails; after the cycle the
    backlog holds block 5. *)
Lemma backlog_changed_by_failed_cycle :
  GetFlashbotsBlock sample.unreachable 5 = inl "connection refused"%string ∧
  BlockBacklog (globalsOf (onHeader sample.unreachable (sample.header 5) (initial true)))
  ≠ BlockBacklog (initial true).
Proof.
  split; [done|]. intros Heq.
  apply (f_equal (λ m, m !! 5)) in Heq. vm_compute in Heq. discriminate.
Qed.

(** C4, amended.  When the node delivers the block of a header and the query
    for the latest block of the Flashbots API fails, the cycle ends normally:
    the backlog is the backlog before the cycle with the new block inserted
    at its height, no height is removed, the history is unchanged, and
    [watch] goes on to the next event with every block still pending. *)
Theorem finality_failure_defers_sweep w header b err rest g :
  GetBlockWithTxReceipts w (big.Int64 (types.HeaderNumber header)) = inr b →
  GetFlashbotsBlock w (big.Int64 (types.HeaderNumber header)) = inl err →
  ∃ g', onHeader w header g = Done tt g' ∧
        BlockBacklog g'
        = <[big.Int64 (types.HeaderNumber header) := b]> (BlockBacklog g) ∧
        removedBy w header g = ∅ ∧
        FailedTxHistory g' = FailedTxHistory g ∧
        last (output g') = Some (LogError err) ∧
        watchLoop (NewHeader header w :: rest) g = watchLoop rest g'.
Proof.
  intros Hb Herr.
  destruct (queueBlock_cases w header g)
    as [(err' & Hb' & _)|(b' & g1 & Hb' & Hq & Hm & Hh)]; [congruence|].
  rewrite Hb in Hb'. injection Hb' as <-.
  exists (withOutput (LogError err) g1).
  assert (Hp : processBacklog w header g1 = Done tt (withOutput (LogError err) g1))
    by (unfold processBacklog; by rewrite Herr).
  assert (Hon : onHeader w header g = Done tt (withOutput (LogError err) g1))
    by (by rewrite onHeader_unfold, Hq).
  split; [done|]. split; [done|]. split.
  { unfold removedBy. rewrite Hq, Hp. simpl. set_solver. }
  split; [done|]. split.
  { simpl. apply last_snoc. }
  simpl. unfold bind. by rewrite Hon.
Qed.

Lemma finality_failure_defers_sweep_witness :
  ∃ g', onHeader sample.unreachable (sample.header 5) (initial true) = Done tt g' ∧
        BlockBacklog g' = {[ 5 := sample.pending5 ]} ∧
        FailedTxHistory g' = [] ∧
        watchLoop [NewHeader (sample.header 5) sample.unreachable;
                   NewHeader (sample.header 6)
                     (sample.world [sample.empty6] (inr 6) sample.bundled)]
                  (initial true)
        = watchLoop [NewHeader (sample.header 6)
                       (sample.world [sample.empty6] (inr 6) sample.bundled)] g'.
Proof.
  destruct (finality_failure_defers_sweep sample.unreachable (sample.header 5)
              sample.pending5 "connection refused"%string
              [NewHeader (sample.header 6)
                 (sample.world [sample.empty6] (inr 6) sample.bundled)]
              (initial true))
    as (g' & Hon & Hm & _ & Hh & _ & Hloop); [reflexivity|reflexivity|].
  exists g'. split; [exact Hon|]. split; [exact Hm|]. split; [exact Hh|exact Hloop].
Defined.

(** ** checkBlockRange *)

Section scanning.

Context (w : World) (startHeight endHeight : Z).

Lemma countTx_snoc bs b :
  checkBlockRange.countTx (bs ++ [b])
  = int64_add (checkBlockRange.countTx bs)
      (Z.of_nat (length (types.Transactions (blockswithtx.Block b)))).
Proof. unfold checkBlockRange.countTx. by rewrite foldl_app. Qed.

Lemma start_invariant delivery g :
  checkBlockRange.invariant w delivery
    (checkBlockRange.start startHeight endHeight delivery g).
Proof.
  unfold checkBlockRange.invariant, checkBlockRange.start, checkBlockRange.capacity.
  simpl. split_and!; try done; lia.
Qed.

Lemma step_invariant delivery p s s' :
  checkBlockRange.invariant w delivery s →
  checkBlockRange.step w startHeight endHeight p s = Some s' →
  checkBlockRange.invariant w delivery s'.
Proof.
  destruct s as [c r ts ch cl lk n ck g cr].
  unfold checkBlockRange.invariant, checkBlockRange.step, checkBlockRange.callerStep,
    checkBlockRange.poolStep, checkBlockRange.receiverStep; simpl.
  intros (Hall & Hnum & Hclosed & Hsent & Hlock & Hrange & Hspawn & Hfin & Hcap
          & Hcrash & Hpanic) Hstep.
  destruct p; repeat case_match; simplify_eq/=; split_and!; try done.
  all: try (by intros; simplify_eq).
  all: try (by rewrite ?app_nil_r in *).
  all: try (by destruct (Hrange eq_refl)).
  all: try (by destruct (Hfin eq_refl)).
  all: try (by rewrite <- ?app_assoc in * ).
  all: try (rewrite length_app; simpl; unfold checkBlockRange.capacity in *; lia).
  all: try (simpl in *; lia).
  all: try (intros Hc; rewrite countTx_snoc; by rewrite (Hnum Hc)).
  all: try (intros _; by apply Hsent).
  all: try match goal with
           | H : (_ <? _)%nat = true |- _ =>
             apply Nat.ltb_lt in H; rewrite length_app; simpl; lia
           end.
  all: try (intros Hc; by discriminate (Hcrash Hc)).
  all: try (intros Hp; destruct (Hpanic Hp) as (pre & b' & c' & ga & gb & ? & ? & ? & ?);
            by exists pre, b', c', ga, gb).
  all: intros _; eexists ck, _, _, _, _; split_and!; [done| |done|eassumption].
  all: apply Hnum; destruct cr; [|done]; by discriminate Hcrash.
Qed.

Lemma run_invariant delivery schedule s s' :
  checkBlockRange.invariant w delivery s →
  checkBlockRange.run w startHeight endHeight schedule s = Some s' →
  checkBlockRange.invariant w delivery s'.
Proof.
  revert s. induction schedule as [|p schedule IH]; intros s Hinv; simpl.
  { by intros [= <-]. }
  destruct (checkBlockRange.step w startHeight endHeight p s) as [s1|] eqn:Hstep; [|done].
  eauto using step_invariant.
Qed.

(** When the caller has returned, one of three things has happened.  The
    receiving routine has checked every block that was sent and the count is
    complete; or it has never held the lock: then it has checked nothing,
    the count is zero and the blocks, at most 100, are still in the channel;
    or [checkBlock] has panicked on a block, the lock was released by the
    deferred unlock, and the count covers the blocks checked before that
    block. *)
Lemma returned_cases delivery g schedule s :
  checkBlockRange.run w startHeight endHeight schedule
    (checkBlockRange.start startHeight endHeight delivery g) = Some s →
  checkBlockRange.caller s = checkBlockRange.Returned →
  (checkBlockRange.crashed s = None ∧
   checkBlockRange.receiver s = checkBlockRange.Finished ∧
   checkBlockRange.checked s = delivery ∧
   checkBlockRange.blockChan s = [] ∧
   checkBlockRange.numTx s = checkBlockRange.countTx delivery) ∨
  (checkBlockRange.crashed s = None ∧
   checkBlockRange.receiver s = checkBlockRange.Spawned ∧
   checkBlockRange.checked s = [] ∧
   checkBlockRange.blockChan s = delivery ∧
   checkBlockRange.numTx s = 0 ∧
   (length delivery ≤ checkBlockRange.capacity)%nat) ∨
  (checkBlockRange.receiver s = checkBlockRange.Panicked ∧
   ∃ pre b c g0 g',
     checkBlockRange.crashed s = Some c ∧
     checkBlock w b g0 = Crashed c g' ∧
     checkBlockRange.checked s = pre ++ [b] ∧
     checkBlockRange.checked s ++ checkBlockRange.blockChan s = delivery ∧
     checkBlockRange.numTx s = checkBlockRange.countTx pre).
Proof.
  intros Hrun Hret.
  pose proof (run_invariant delivery schedule _ s
                (start_invariant delivery g) Hrun)
    as (Hall & Hnum & Hclosed & Hsent & Hlock & Hrange & Hspawn & Hfin & Hcap
        & Hcrash & Hpanic).
  rewrite Hret in *.
  assert (Hts : checkBlockRange.toSend s = []) by by apply Hsent.
  rewrite Hts, app_nil_r in Hall.
  destruct (checkBlockRange.receiver s) eqn:Hr.
  - assert (Hc : checkBlockRange.crashed s = None).
    { destruct (checkBlockRange.crashed s); [|done]. by discriminate Hcrash. }
    right. left.
    pose proof (Hnum Hc) as Hn.
    rewrite (Hspawn eq_refl) in *. simpl in Hall. subst delivery.
    split_and!; done.
  - by destruct (Hrange eq_refl).
  - assert (Hc : checkBlockRange.crashed s = None).
    { destruct (checkBlockRange.crashed s); [|done]. by discriminate Hcrash. }
    left.
    destruct (Hfin eq_refl) as [Hch _]. rewrite Hch, app_nil_r in Hall. subst delivery.
    split_and!; try done. exact (Hnum Hc).
  - right. right. split; [done|].
    destruct (Hpanic eq_refl) as (pre & b & c & g0 & g' & Hck & Hn & Hc & Hb).
    exists pre, b, c, g0, g'. split_and!; done.
Qed.

Lemma totalTx_app bs bs' :
  checkBlockRange.totalTx (bs ++ bs') = checkBlockRange.totalTx bs + checkBlockRange.totalTx bs'.
Proof. induction bs as [|b bs IH]; simpl; [done|]. rewrite IH. lia. Qed.

Lemma totalTx_nonneg bs : 0 ≤ checkBlockRange.totalTx bs.
Proof. induction bs as [|b bs IH]; simpl; lia. Qed.

(** Without overflow the count is the sum of the transaction counts. *)
Lemma countTx_exact bs :
  checkBlockRange.totalTx bs < 2 ^ 63 → checkBlockRange.countTx bs = checkBlockRange.totalTx bs.
Proof.
  induction bs as [|b bs IH] using rev_ind; [done|].
  rewrite countTx_snoc, totalTx_app. simpl.
  pose proof (totalTx_nonneg bs). intros Hlt.
  rewrite IH by lia.
  unfold int64_add. rewrite to_int64_small; lia.
Qed.

End scanning.

(** A scan of more blocks than the channel holds, in which [checkBlock] does
    not panic, returns only after the receiving routine has checked all of
    them. *)
Lemma returned_after_drain_over_capacity w startHeight endHeight delivery g schedule s :
  (checkBlockRange.capacity < length delivery)%nat →
  checkBlockRange.run w startHeight endHeight schedule
    (checkBlockRange.start startHeight endHeight delivery g) = Some s →
  checkBlockRange.caller s = checkBlockRange.Returned →
  checkBlockRange.crashed s = None →
  checkBlockRange.receiver s = checkBlockRange.Finished ∧
  checkBlockRange.checked s = delivery ∧
  checkBlockRange.blockChan s = [] ∧
  checkBlockRange.numTx s = checkBlockRange.countTx delivery.
Proof.
  intros Hlen Hrun Hret Hc.
  destruct (returned_cases w startHeight endHeight delivery g schedule s Hrun Hret)
    as [(_ & Hgood)|[(_ & _ & _ & _ & _ & Hsmall)|(_ & ? & ? & c & ? & ? & Hs & _)]];
    [done|lia|congruence].
Qed.

(** When the receiving routine takes the lock first, the scan of the range
    [100, 100] checks block 100 and reports its one transaction. *)
Lemma receiver_first_scan_is_complete :
  ∃ s, checkBlockRange.run (sample.world [] (inr 100) sample.bundled) 100 100
         sample.receiverFirst
         (checkBlockRange.start 100 100 [sample.block100] (initial true)) = Some s ∧
       checkBlockRange.checked s = [sample.block100] ∧
       checkBlockRange.reported s = Some 1.
Proof. eexists. split; [by vm_compute|]. by vm_compute. Qed.

(** A panic of [checkBlock] releases the lock: block 99 holds a failed 0-gas
    contract creation; the caller returns with block 50 unchecked in the
    channel and reports the one transaction of block 100, out of four. *)
Lemma scan_returns_after_panic :
  ∃ s, checkBlockRange.run (sample.world [] (inr 100) sample.bundled) 50 100
         sample.panicThenReturn
         (checkBlockRange.start 50 100 sample.panicking (initial true)) = Some s ∧
       checkBlockRange.caller s = checkBlockRange.Returned ∧
       checkBlockRange.crashed s = Some NilDereference ∧
       checkBlockRange.blockChan s = [sample.plain50] ∧
       checkBlockRange.totalTx sample.panicking = 4 ∧
       checkBlockRange.reported s = Some 1.
Proof. eexists. split; [by vm_compute|]. by vm_compute. Qed.

(** C6. The scan of the range [100, 100], whose block has one transaction:
    when the caller takes the lock before the receiving routine does, the
    block is fetched and sent but never passed to [checkBlock], and the
    caller reports 0 transactions. *)
Theorem scan_reports_no_transactions :
  ∃ s, checkBlockRange.run (sample.world [] (inr 100) sample.bundled) 100 100 sample.callerFirst
         (checkBlockRange.start 100 100 [sample.block100] (initial true)) = Some s ∧
       checkBlockRange.totalTx [sample.block100] = 1 ∧
       checkBlockRange.checked s = [] ∧
       checkBlockRange.reported s = Some 0.
Proof. eexists. split; [by vm_compute|]. by vm_compute. Qed.

(** C7. The scan of the range [100, 100] when the pool sends block 100 and
    the caller closes the channel and takes the lock before the receiving
    routine makes its first move: the caller of [checkBlockRange] has
    returned while the block is still in the closed channel, and the
    receiving routine, which has consumed nothing, is blocked on the lock. *)
Theorem caller_returns_before_drain :
  ∃ s, checkBlockRange.run (sample.world [] (inr 100) sample.bundled) 100 100 sample.callerFirst
         (checkBlockRange.start 100 100 [sample.block100] (initial true)) = Some s ∧
       checkBlockRange.caller s = checkBlockRange.Returned ∧
       checkBlockRange.closed s = true ∧
       checkBlockRange.blockChan s = [sample.block100] ∧
       checkBlockRange.receiver s = checkBlockRange.Spawned ∧
       checkBlockRange.step (sample.world [] (inr 100) sample.bundled) 100 100
         checkBlockRange.ReceiverMoves s = None.
Proof. eexists. split; [by vm_compute|]. by vm_compute. Qed.

(** ** Further properties of checkBlock *)

Lemma failedZeroGas_inv b tx :
  failedZeroGas b tx = true →
  ∃ receipt, blockswithtx.TxReceipts b !! types.Hash tx = Some receipt ∧
             types.GasPrice tx = 0 ∧ types.Data tx ≠ [] ∧ types.Status receipt ≠ 1.
Proof.
  unfold failedZeroGas, utils.IsBigIntZero.
  destruct (blockswithtx.TxReceipts b !! types.Hash tx) as [receipt|]; [|done].
  intros [[Hg Hd]%andb_prop Hs]%andb_prop. exists receipt.
  split; [done|]. split; [by apply Z.eqb_eq|]. split.
  - intros Hnil. rewrite Hnil in Hd. done.
  - intros Hone. rewrite Hone in Hs. done.
Qed.

(** X1. Whenever the check of a transaction does anything (changes a
    global, prints, returns from [checkBlock] or panics), the transaction
    has a receipt, gas price zero, data, and a receipt status other than 1:
    a transaction without receipt, with a gas price, without data or with a
    successful receipt is passed over. *)
Theorem only_failed_zero_gas_txs_are_acted_on w b tx g :
  checkTransaction w b tx g ≠ Done Next g →
  ∃ receipt, blockswithtx.TxReceipts b !! types.Hash tx = Some receipt ∧
             types.GasPrice tx = 0 ∧ types.Data tx ≠ [] ∧ types.Status receipt ≠ 1.
Proof.
  intros Hacts. apply failedZeroGas_inv.
  destruct (failedZeroGas b tx) eqn:Hf; [done|].
  by rewrite checkTransaction_skips in Hacts.
Qed.

Lemma only_failed_zero_gas_txs_are_acted_on_witness :
  ∃ receipt,
    blockswithtx.TxReceipts sample.pending5 !! types.Hash sample.second = Some receipt ∧
    types.GasPrice sample.second = 0 ∧ types.Data sample.second ≠ [] ∧
    types.Status receipt ≠ 1.
Proof.
  apply (only_failed_zero_gas_txs_are_acted_on
           (sample.world [] (inr 5) (sample.failsAt "0x02")) sample.pending5
           sample.second (initial true)).
  vm_compute. discriminate.
Defined.

(** The scan of transactions whose checks all run to the end of the loop
    body. *)
Lemma forTransactions_checkable w b txs g :
  forallb (λ tx, match recorded w b tx with
                 | Some _ => true
                 | None => negb (failedZeroGas b tx)
                 end) txs = true →
  ∃ g', forTransactions w b txs g = Done Next g' ∧
        FailedTxHistory g'
        = foldl remember (FailedTxHistory g) (omap (recorded w b) txs) ∧
        output g' = output g ++ omap (reportOf w b) txs ∧
        BlockBacklog g' = BlockBacklog g ∧ silent g' = silent g ∧
        isWatchMode g' = isWatchMode g.
Proof.
  revert g. induction txs as [|tx txs IH]; intros g Hall.
  { exists g. simpl. by rewrite app_nil_r. }
  simpl in Hall. apply andb_prop in Hall as [Htx Hall].
  rewrite forTransactions_cons.
  change (omap (recorded w b) (tx :: txs))
    with (match recorded w b tx with
          | Some failedTx => failedTx :: omap (recorded w b) txs
          | None => omap (recorded w b) txs
          end).
  change (omap (reportOf w b) (tx :: txs))
    with (match reportOf w b tx with
          | Some line => line :: omap (reportOf w b) txs
          | None => omap (reportOf w b) txs
          end).
  unfold recorded at 1 in Htx. unfold recorded at 1. unfold reportOf at 1.
  destruct (checkTransaction_cases w b tx g)
    as [(Hf & ->)|[(? & Hf & Hq & ->)|[(? & Hf & Hq & Hto & ->)
        |(isF & to & Hf & Hq & Hto & ->)]]]; rewrite Hf in *.
  - by apply IH.
  - by rewrite Hq in Htx.
  - by rewrite Hq, Hto in Htx.
  - rewrite Hq, Hto.
    destruct (IH (withRecord b tx to isF g) Hall) as (g' & Hrun & Hh & Ho & Hb & Hs & Hm).
    exists g'. rewrite Hrun, Hh, Ho, Hb, Hs, Hm. split_and!; try done.
    simpl. by rewrite <- app_assoc.
Qed.

Lemma checkBlock_checkable w b g :
  checkable w b = true →
  ∃ g', checkBlock w b g = Done tt g' ∧
        FailedTxHistory g'
        = foldl remember (FailedTxHistory g)
            (omap (recorded w b) (types.Transactions (blockswithtx.Block b))) ∧
        output g'
        = output g ++ (if silent g then [] else [PrintBlock (blockswithtx.Block b)])
          ++ omap (reportOf w b) (types.Transactions (blockswithtx.Block b)) ∧
        BlockBacklog g' = delete (backlogKey b) (BlockBacklog g) ∧
        silent g' = silent g.
Proof.
  intros Hall. rewrite checkBlock_unfold.
  destruct (forTransactions_checkable w b _ (announced b g) Hall)
    as (g1 & -> & Hh & Ho & Hb & Hs & _).
  destruct (announced_frame b g) as (Hab & Hah & Has).
  eexists. split; [done|]. simpl.
  rewrite Hh, Hah, Ho, Hb, Hab, Hs, Has. split_and!; try done.
  unfold announced. destruct (silent g); simpl; [done|]. by rewrite <- app_assoc.
Qed.

(** X2. When, for every failed 0-gas transaction of a block, the bundle
    query is answered and the recipient is not nil, [checkBlock] returns
    normally: it has appended one record for each of these transactions, in
    the order of the block, has printed the block (unless silent) and one
    line for each record, and has deleted the block from the backlog. *)
Theorem complete_check_records_every_failed_tx w b g :
  checkable w b = true →
  ∃ g', checkBlock w b g = Done tt g' ∧
        FailedTxHistory g'
        = foldl remember (FailedTxHistory g)
            (omap (recorded w b) (types.Transactions (blockswithtx.Block b))) ∧
        output g'
        = output g ++ (if silent g then [] else [PrintBlock (blockswithtx.Block b)])
          ++ omap (reportOf w b) (types.Transactions (blockswithtx.Block b)) ∧
        BlockBacklog g' = delete (backlogKey b) (BlockBacklog g) ∧
        silent g' = silent g.
Proof. apply checkBlock_checkable. Qed.

Lemma complete_check_records_every_failed_tx_witness :
  ∃ g', checkBlock sample.reports48 sample.plain50
          (withBlockBacklog {[ 50 := sample.plain50 ]} (initial false)) = Done tt g' ∧
        FailedTxHistory g'
        = [recordOf sample.plain50 sample.transfer "0xbeef" true;
           recordOf sample.plain50 sample.second "0xcafe" true] ∧
        output g'
        = [PrintBlock (blockswithtx.Block sample.plain50);
           FailedFlashbotsTx "0x01" "0xf00d" 50; FailedFlashbotsTx "0x02" "0xf00d" 50] ∧
        BlockBacklog g' = ∅.
Proof.
  destruct (complete_check_records_every_failed_tx sample.reports48 sample.plain50
              (withBlockBacklog {[ 50 := sample.plain50 ]} (initial false)))
    as (g' & Hc & Hh & Ho & Hb & _); [by vm_compute|].
  exists g'. split; [exact Hc|]. split; [exact Hh|]. split; [exact Ho|].
  rewrite Hb. by vm_compute.
Defined.

(** X3. The error of the sender recovery is ignored (line 156): a failed
    0-gas transaction whose sender cannot be recovered is recorded all the
    same, with the zero address as its sender. *)
Theorem unrecovered_sender_is_zero_address w b tx to isFlashbotsTx g :
  failedZeroGas b tx = true →
  IsFlashbotsTx w (blockswithtx.Block b) tx = inr isFlashbotsTx →
  types.To tx = Some to →
  types.signer tx = None →
  ∃ g' failedTx,
    checkTransaction w b tx g = Done Next g' ∧
    last (FailedTxHistory g') = Some failedTx ∧
    From failedTx = common.zeroAddress ∧
    Hash failedTx = types.Hash tx.
Proof.
  intros Hf Hq Hto Hsig.
  exists (withRecord b tx to isFlashbotsTx g), (recordOf b tx to isFlashbotsTx).
  split; [by apply checkTransaction_records|].
  split; [simpl; unfold remember; apply last_snoc|].
  split; [|done]. simpl. unfold utils.GetTxSender. by rewrite Hsig.
Qed.

Lemma unrecovered_sender_is_zero_address_witness :
  ∃ g' failedTx,
    checkTransaction sample.reports48 (sample.block 50 [sample.unsigned])
      sample.unsigned (initial true) = Done Next g' ∧
    last (FailedTxHistory g') = Some failedTx ∧
    From failedTx = common.zeroAddress ∧
    Hash failedTx = "0x04"%string.
Proof.
  apply (unrecovered_sender_is_zero_address sample.reports48
           (sample.block 50 [sample.unsigned]) sample.unsigned "0xbeef"%string true);
    [by vm_compute|reflexivity|reflexivity|reflexivity].
Defined.

Lemma forTransactions_crash w b txs g c g' :
  forTransactions w b txs g = Crashed c g' →
  c = NilDereference ∧
  ∃ tx isFlashbotsTx,
    tx ∈ txs ∧ failedZeroGas b tx = true ∧ types.To tx = None ∧
    IsFlashbotsTx w (blockswithtx.Block b) tx = inr isFlashbotsTx.
Proof.
  revert g. induction txs as [|tx txs IH]; intros g; [done|].
  rewrite forTransactions_cons.
  destruct (checkTransaction_cases w b tx g)
    as [(Hf & ->)|[(? & Hf & Hq & ->)|[(isF & Hf & Hq & Hto & ->)
        |(isF & to & Hf & Hq & Hto & ->)]]]; try done.
  - intros (-> & tx' & isF & Hin & H)%IH. split; [done|].
    exists tx', isF. split; [by right|done].
  - intros [= <- <-]. split; [done|]. exists tx, isF. split; [by left|done].
  - intros (-> & tx' & isF' & Hin & H)%IH. split; [done|].
    exists tx', isF'. split; [by right|done].
Qed.

Lemma checkBlock_crash w b g c g' :
  checkBlock w b g = Crashed c g' →
  c = NilDereference ∧
  ∃ tx isFlashbotsTx,
    tx ∈ types.Transactions (blockswithtx.Block b) ∧
    failedZeroGas b tx = true ∧ types.To tx = None ∧
    IsFlashbotsTx w (blockswithtx.Block b) tx = inr isFlashbotsTx.
Proof.
  rewrite checkBlock_unfold.
  destruct (forTransactions w b _ (announced b g)) as [[] g1|c1 g1] eqn:Hscan; try done.
  intros [= <- <-]. by eapply forTransactions_crash.
Qed.

(** X4. [checkBlock] stops abnormally in one way only: by the nil
    dereference of the recipient of a failed 0-gas transaction whose bundle
    query was answered.  It never stops on an error of the Flashbots API. *)
Theorem checkBlock_crashes_only_on_nil_recipient w b g c g' :
  checkBlock w b g = Crashed c g' →
  c = NilDereference ∧
  ∃ tx isFlashbotsTx,
    tx ∈ types.Transactions (blockswithtx.Block b) ∧
    failedZeroGas b tx = true ∧ types.To tx = None ∧
    IsFlashbotsTx w (blockswithtx.Block b) tx = inr isFlashbotsTx.
Proof. apply checkBlock_crash. Qed.

Lemma checkBlock_crashes_only_on_nil_recipient_witness :
  ∃ tx isFlashbotsTx,
    tx ∈ [sample.transfer; sample.creation] ∧
    failedZeroGas (sample.block 7 [sample.transfer; sample.creation]) tx = true ∧
    types.To tx = None ∧
    IsFlashbotsTx (sample.world [] (inr 7) sample.bundled)
      (blockswithtx.Block (sample.block 7 [sample.transfer; sample.creation])) tx
    = inr isFlashbotsTx.
Proof.
  eapply (checkBlock_crashes_only_on_nil_recipient
            (sample.world [] (inr 7) sample.bundled)
            (sample.block 7 [sample.transfer; sample.creation]) (initial true)).
  vm_compute. reflexivity.
Defined.

(** A block whose transactions all name a recipient is checked without a
    panic, whatever the Flashbots API answers. *)
Lemma checkBlock_returns w b g :
  hasRecipients b → ∃ g', checkBlock w b g = Done tt g'.
Proof.
  intros Hrec. destruct (checkBlock w b g) as [[] g'|c g'] eqn:Hc; [by exists g'|].
  apply checkBlock_crash in Hc as (_ & tx & isF & Hin & _ & Hto & _).
  unfold hasRecipients in Hrec. rewrite Forall_forall in Hrec.
  destruct (Hrec tx Hin) as [to Hsome]. congruence.
Qed.

(** ** Further properties of watch *)

(** When every pending block can be checked to its end, the walk removes the
    heights up to [latest] that it visits and keeps the others. *)
Lemma forBacklog_clears w latest entries g :
  backlogKeyed g →
  (∀ k b, BlockBacklog g !! k = Some b → checkable w b = true) →
  ∃ g', forBacklog w latest entries g = Done tt g' ∧
        ∀ k, BlockBacklog g' !! k
             = if decide (k ≤ latest ∧ k ∈ entries.*1) then None
               else BlockBacklog g !! k.
Proof.
  revert g. induction entries as [|[height x] rest IH]; intros g Hk Hall.
  { exists g. split; [done|]. intros k. rewrite decide_False; [done|].
    intros [_ Hin]. by apply elem_of_nil in Hin. }
  rewrite forBacklog_cons. rewrite fmap_cons. simpl.
  destruct (BlockBacklog g !! height) as [b|] eqn:Hl.
  - destruct (Z.leb_spec height latest) as [Hle|Hgt].
    + destruct (checkBlock_checkable w b g (Hall _ _ Hl)) as (g1 & -> & _ & _ & Hb & _).
      unfold backlogKey in Hb. rewrite (Hk _ _ Hl) in Hb.
      destruct (IH g1) as (g' & -> & Hlk).
      { by eapply backlogKeyed_delete. }
      { intros k b'. rewrite Hb. intros [_ ?]%lookup_delete_Some. by eapply Hall. }
      exists g'. split; [done|]. intros k. rewrite Hlk, Hb.
      destruct (decide (k = height)) as [->|Hne].
      * rewrite lookup_delete_eq. repeat case_decide; try done.
        all: exfalso; set_solver.
      * rewrite lookup_delete_ne by done.
        repeat case_decide; try done; exfalso; set_solver.
    + destruct (IH g Hk Hall) as (g' & -> & Hlk).
      exists g'. split; [done|]. intros k. rewrite Hlk.
      repeat case_decide; try done.
      * exfalso. set_solver.
      * assert (k = height) as -> by set_solver. lia.
  - destruct (IH g Hk Hall) as (g' & -> & Hlk).
    exists g'. split; [done|]. intros k. rewrite Hlk.
    repeat case_decide; try done.
    + exfalso. set_solver.
    + assert (k = height) as -> by set_solver. done.
Qed.

Lemma walk_visits_pending w (m : gmap Z blockswithtx.BlockWithTxReceipts) k b :
  walksWholeMap w → m !! k = Some b → k ∈ (rangeOrder w m).*1.
Proof.
  intros Hwalk Hl. apply list_elem_of_fmap. exists (k, b). split; [done|].
  rewrite (Hwalk m). by apply elem_of_map_to_list.
Qed.

(** X5. A cycle of [watch] in which the node delivers the block of the
    header, the Flashbots API reports its latest block, and every pending
    block can be checked to its end: the cycle ends normally, and the
    backlog then holds exactly the blocks, the new one included, whose
    height is above the reported latest block. *)
Theorem sweep_clears_confirmed_heights w header b latest g :
  walksWholeMap w →
  backlogKeyed g →
  GetBlockWithTxReceipts w (big.Int64 (types.HeaderNumber header)) = inr b →
  backlogKey b = big.Int64 (types.HeaderNumber header) →
  GetFlashbotsBlock w (big.Int64 (types.HeaderNumber header)) = inr latest →
  (∀ k b', <[big.Int64 (types.HeaderNumber header) := b]> (BlockBacklog g) !! k = Some b' →
           checkable w b' = true) →
  ∃ g', onHeader w header g = Done tt g' ∧
        BlockBacklog g'
        = filter (λ kv, latest < kv.1)
            (<[big.Int64 (types.HeaderNumber header) := b]> (BlockBacklog g)).
Proof.
  intros Hwalk Hk Hfetch Hkey Hlatest Hall.
  destruct (queueBlock_cases w header g)
    as [(err & Hb' & _)|(b' & g1 & Hb' & Hq & Hm & _)]; [congruence|].
  rewrite Hfetch in Hb'. injection Hb' as <-.
  assert (Hk1 : backlogKeyed g1).
  { intros height b' Hl. rewrite Hm in Hl.
    apply lookup_insert_Some in Hl as [[<- <-]|[_ Hl]]; [done|by apply Hk]. }
  rewrite <- Hm in Hall.
  destruct (forBacklog_clears w latest (rangeOrder w (BlockBacklog g1)) g1 Hk1 Hall)
    as (g' & Hrun & Hlk).
  exists g'. split.
  - rewrite onHeader_unfold, Hq. unfold processBacklog. rewrite Hlatest.
    unfold bind, get. done.
  - rewrite <- Hm. apply map_eq. intros k. rewrite Hlk.
    apply option_eq. intros b'. rewrite map_lookup_filter_Some. simpl.
    case_decide as Hdue.
    + split; [done|]. intros [_ ?]. lia.
    + split.
      * intros Hl. split; [done|].
        destruct (Z.lt_ge_cases latest k) as [|Hle]; [done|].
        exfalso. apply Hdue. split; [lia|]. by eapply walk_visits_pending.
      * by intros [? _].
Qed.

Lemma sweep_clears_confirmed_heights_witness :
  ∃ g', onHeader sample.reports48 (sample.header 50) sample.pending47and48 = Done tt g' ∧
        BlockBacklog g' = {[ 50 := sample.plain50 ]}.
Proof.
  destruct (sweep_clears_confirmed_heights sample.reports48 (sample.header 50)
              sample.plain50 48 sample.pending47and48)
    as (g' & Hrun & Hb).
  - intros m. reflexivity.
  - intros height b Hl. simpl in Hl.
    apply lookup_insert_Some in Hl as [[<- <-]|[_ Hl]]; [reflexivity|].
    apply lookup_singleton_Some in Hl as [<- <-]. reflexivity.
  - reflexivity.
  - reflexivity.
  - reflexivity.
  - intros k b Hl. simpl in Hl.
    apply lookup_insert_Some in Hl as [[_ <-]|[_ Hl]]; [reflexivity|].
    apply lookup_insert_Some in Hl as [[_ <-]|[_ Hl]]; [reflexivity|].
    apply lookup_singleton_Some in Hl as [_ <-]. reflexivity.
  - exists g'. split; [exact Hrun|]. rewrite Hb. by vm_compute.
Defined.

Lemma forBacklog_nothing_due w latest entries g :
  (∀ k, k ∈ dom (BlockBacklog g) → latest < k) →
  forBacklog w latest entries g = Done tt g.
Proof.
  intros Habove. induction entries as [|[height x] rest IH]; [done|].
  rewrite forBacklog_cons.
  destruct (BlockBacklog g !! height) as [b|] eqn:Hl; [|done].
  destruct (Z.leb_spec height latest) as [Hle|]; [|done].
  assert (latest < height); [|lia].
  apply Habove, elem_of_dom. by eexists.
Qed.

(** X6. A cycle of [watch] in which the Flashbots API reports a latest block
    below every pending height, that of the new block included: no block is
    checked; the cycle ends normally with the new block queued, the history
    as it was and nothing printed but the queueing line. *)
Theorem unconfirmed_blocks_are_not_checked w header b latest g :
  GetBlockWithTxReceipts w (big.Int64 (types.HeaderNumber header)) = inr b →
  GetFlashbotsBlock w (big.Int64 (types.HeaderNumber header)) = inr latest →
  latest < big.Int64 (types.HeaderNumber header) →
  (∀ k, k ∈ dom (BlockBacklog g) → latest < k) →
  ∃ g', onHeader w header g = Done tt g' ∧
        BlockBacklog g'
        = <[big.Int64 (types.HeaderNumber header) := b]> (BlockBacklog g) ∧
        FailedTxHistory g' = FailedTxHistory g ∧
        output g'
        = output g ++ (if silent g then []
                       else [QueueingNewBlock (types.Number (blockswithtx.Block b))]).
Proof.
  intros Hfetch Hlatest Hnew Hold.
  rewrite onHeader_unfold. unfold queueBlock. rewrite Hfetch.
  unfold processBacklog. rewrite Hlatest. unfold bind, get.
  destruct (silent g) eqn:Hs; simpl.
  - rewrite forBacklog_nothing_due.
    + eexists. split; [done|]. simpl. by rewrite app_nil_r.
    + simpl. intros k. rewrite dom_insert_L.
      intros [->%elem_of_singleton|Hin]%elem_of_union; [done|by apply Hold].
  - rewrite forBacklog_nothing_due.
    + eexists. split; [done|]. done.
    + simpl. intros k. rewrite dom_insert_L.
      intros [->%elem_of_singleton|Hin]%elem_of_union; [done|by apply Hold].
Qed.

Lemma unconfirmed_blocks_are_not_checked_witness :
  ∃ g', onHeader (sample.world [sample.plain50] (inr 46) sample.bundled)
          (sample.header 50) sample.pending47and48 = Done tt g' ∧
        BlockBacklog g' = <[50 := sample.plain50]> (BlockBacklog sample.pending47and48) ∧
        FailedTxHistory g' = [] ∧
        output g' = [].
Proof.
  apply (unconfirmed_blocks_are_not_checked
           (sample.world [sample.plain50] (inr 46) sample.bundled) (sample.header 50)
           sample.plain50 46 sample.pending47and48);
    [reflexivity|reflexivity|reflexivity|].
  intros k. simpl. rewrite dom_insert_L, dom_singleton_L.
  intros [->%elem_of_singleton| ->%elem_of_singleton]%elem_of_union; lia.
Defined.

Lemma watchLoop_app pre rest g :
  watchLoop (pre ++ rest) g
  = match watchLoop pre g with
    | Done _ g' => watchLoop rest g'
    | Crashed c g' => Crashed c g'
    end.
Proof.
  revert g. induction pre as [|[err|header w] pre IH]; intros g; [done..|].
  simpl. unfold bind.
  destruct (onHeader w header g) as [[] g1|]; [apply IH|done].
Qed.

(** X7. An error of the subscription ends [watch] by [log.Fatal] (lines
    114-115): the events before it are handled as usual, and no event after
    it is handled, whatever it is. *)
Theorem subscription_error_ends_watch pre err rest g :
  watchLoop (pre ++ SubscriptionError err :: rest) g
  = match watchLoop pre g with
    | Done _ g' => Crashed (LogFatal err) g'
    | Crashed c g' => Crashed c g'
    end.
Proof. by rewrite watchLoop_app. Qed.

(** X8. When the node fails to deliver the block of a header, [utils.Perror]
    panics (lines 117-118): [watch] stops with the globals as they were when
    the header arrived (nothing is queued, printed or checked), and no
    later event is handled. *)
Theorem fetch_error_ends_watch pre header w err rest g g' :
  watchLoop pre g = Done tt g' →
  GetBlockWithTxReceipts w (big.Int64 (types.HeaderNumber header)) = inl err →
  watchLoop (pre ++ NewHeader header w :: rest) g = Crashed (PerrorPanic err) g'.
Proof.
  intros Hpre Hfetch. rewrite watchLoop_app, Hpre. simpl.
  unfold bind, onHeader, bind, queueBlock. by rewrite Hfetch.
Qed.

Lemma fetch_error_ends_watch_witness :
  watchLoop ([NewHeader (sample.header 5) sample.unreachable]
             ++ NewHeader (sample.header 6) sample.unreachable
             :: [NewHeader (sample.header 5) sample.unreachable]) (initial true)
  = Crashed (PerrorPanic "not found")
      (withOutput (LogError "connection refused")
         (withBlockBacklog {[ 5 := sample.pending5 ]} (initial true))).
Proof.
  apply (fetch_error_ends_watch [NewHeader (sample.header 5) sample.unreachable]
           (sample.header 6) sample.unreachable "not found"%string);
    [by vm_compute|reflexivity].
Defined.

(** The walk over a backlog whose blocks all name recipients ends normally
    and leaves such a backlog. *)
Lemma forBacklog_returns w latest entries g :
  (∀ k b, BlockBacklog g !! k = Some b → hasRecipients b) →
  ∃ g', forBacklog w latest entries g = Done tt g' ∧
        ∀ k b, BlockBacklog g' !! k = Some b → hasRecipients b.
Proof.
  revert g. induction entries as [|[height x] rest IH]; intros g Hrec; [by exists g|].
  rewrite forBacklog_cons.
  destruct (BlockBacklog g !! height) as [b|] eqn:Hl; [|by apply IH].
  destruct (height <=? latest); [|by apply IH].
  destruct (checkBlock_returns w b g (Hrec _ _ Hl)) as [g1 Hc].
  pose proof (checkBlock_backlog w b g) as Hb. rewrite Hc in *. simpl in Hb.
  apply IH. intros k b'.
  destruct Hb as [-> | ->]; [by apply Hrec|].
  intros [_ ?]%lookup_delete_Some. by eapply Hrec.
Qed.

Lemma onHeader_returns w header g :
  deliversRecipients (NewHeader header w) →
  (∀ k b, BlockBacklog g !! k = Some b → hasRecipients b) →
  ∃ g', onHeader w header g = Done tt g' ∧
        ∀ k b, BlockBacklog g' !! k = Some b → hasRecipients b.
Proof.
  intros (b & Hfetch & Hb) Hrec.
  destruct (queueBlock_cases w header g)
    as [(err & Hb' & _)|(b' & g1 & Hb' & Hq & Hm & _)]; [congruence|].
  rewrite Hfetch in Hb'. injection Hb' as <-.
  assert (Hrec1 : ∀ k b', BlockBacklog g1 !! k = Some b' → hasRecipients b').
  { intros k b'. rewrite Hm.
    intros [[_ <-]|[_ ?]]%lookup_insert_Some; [done|by eapply Hrec]. }
  rewrite onHeader_unfold, Hq. unfold processBacklog.
  destruct (GetFlashbotsBlock w _) as [err|latest]; [by eexists|].
  unfold bind, get. by apply forBacklog_returns.
Qed.

(** X9. The errors of the Flashbots API never end [watch]: as long as the
    node delivers the block of every header and every transaction of these
    blocks names a recipient, [watch] handles every event and goes on,
    whatever the two queries of the Flashbots API answer. *)
Theorem flashbots_errors_never_end_watch events quiet :
  Forall deliversRecipients events →
  ∃ g', watchLoop events (initial quiet) = Done tt g'.
Proof.
  intros Hev.
  assert (Hgen : ∀ g, (∀ k b, BlockBacklog g !! k = Some b → hasRecipients b) →
                      ∃ g', watchLoop events g = Done tt g').
  { induction Hev as [|[err|header w] events He _ IH]; intros g Hrec;
      [by exists g|done|].
    simpl. unfold bind.
    destruct (onHeader_returns w header g He Hrec) as (g1 & -> & Hrec1).
    by apply IH. }
  apply Hgen. intros k b Hl. simpl in Hl. by rewrite lookup_empty in Hl.
Qed.

Lemma flashbots_errors_never_end_watch_witness :
  ∃ g', watchLoop [NewHeader (sample.header 5) sample.unreachable;
                   NewHeader (sample.header 5)
                     (sample.world [sample.pending5] (inr 5) (sample.failsAt "0x01"))]
          (initial true) = Done tt g'.
Proof.
  apply flashbots_errors_never_end_watch.
  repeat constructor; (exists sample.pending5; split; [reflexivity|]);
    repeat constructor; by eexists.
Defined.

Lemma forBacklog_silent w latest entries g :
  silent (globalsOf (forBacklog w latest entries g)) = silent g.
Proof.
  revert g. induction entries as [|[height x] rest IH]; intros g; [done|].
  rewrite forBacklog_cons.
  destruct (BlockBacklog g !! height) as [b|]; [|apply IH].
  destruct (height <=? latest); [|apply IH].
  pose proof (checkBlock_silent w b g) as Hc.
  destruct (checkBlock w b g) as [[] g1|]; simpl in *; [|done].
  by rewrite IH.
Qed.

Lemma processBacklog_silent w header g :
  silent (globalsOf (processBacklog w header g)) = silent g.
Proof.
  unfold processBacklog. destruct (GetFlashbotsBlock w _); [done|].
  unfold bind, get. apply forBacklog_silent.
Qed.

Lemma onHeader_silent w header g :
  silent (globalsOf (onHeader w header g)) = silent g.
Proof.
  rewrite onHeader_unfold. unfold queueBlock.
  destruct (GetBlockWithTxReceipts w _) as [err|b]; [done|].
  unfold bind, get. destruct (silent g) eqn:Hq; simpl;
    by rewrite processBacklog_silent.
Qed.

(** What holds of the backlog after any events. *)
Lemma watchLoop_backlog events g :
  Forall nodeAnswersHeight events →
  backlogKeyed g →
  let g' := globalsOf (watchLoop events g) in
  backlogKeyed g' ∧
  dom (BlockBacklog g') ⊆ list_to_set (headerHeights events) ∪ dom (BlockBacklog g) ∧
  silent g' = silent g.
Proof.
  intros Hnode. revert g.
  induction Hnode as [|[err|header w] events He _ IH]; intros g Hk;
    [by split_and!; [|set_solver|]..|].
  simpl. unfold bind.
  pose proof (onHeader_dom w header g) as Hdom.
  pose proof (onHeader_silent w header g) as Hs.
  assert (Hk1 : backlogKeyed (globalsOf (onHeader w header g))).
  { rewrite onHeader_unfold.
    destruct (queueBlock w header g) as [[] g1|c g1] eqn:Hq.
    - pose proof (queueBlock_keyed w header g g1 He Hk Hq) as Hk1.
      by destruct (processBacklog_removes w header g1 Hk1) as (? & _).
    - destruct (queueBlock_cases w header g)
        as [(err & _ & Hc)|(b & g1' & _ & Hd & _)]; [|congruence].
      rewrite Hq in Hc. by injection Hc as _ <-. }
  destruct (onHeader w header g) as [[] g1|c g1]; simpl in *.
  - destruct (IH g1 Hk1) as (Hk' & Hdom' & Hs').
    split; [done|]. split; [set_solver|]. by rewrite Hs'.
  - split; [done|]. split; [set_solver|done].
Qed.

(** X10. The node answering each request with the block of the requested
    height: after any events, every block pending in the backlog is stored
    under its own height, every pending height has been announced by one
    of the headers received, and [watch] has not changed the [silent]
    setting. *)
Theorem backlog_holds_announced_blocks events quiet :
  Forall nodeAnswersHeight events →
  let g' := globalsOf (watchLoop events (initial quiet)) in
  (∀ height b, BlockBacklog g' !! height = Some b →
               big.Int64 (types.Number (blockswithtx.Block b)) = height ∧
               height ∈ headerHeights events) ∧
  silent g' = quiet.
Proof.
  intros Hnode.
  destruct (watchLoop_backlog events (initial quiet) Hnode) as (Hk & Hdom & Hs).
  { by intros height b Hl. }
  split; [|done]. intros height b Hl. split; [by apply Hk|].
  assert (height ∈ dom (BlockBacklog (globalsOf (watchLoop events (initial quiet)))))
    as Hin by (apply elem_of_dom; by eexists).
  apply Hdom in Hin. simpl in Hin. set_solver.
Qed.

Lemma backlog_holds_announced_blocks_witness :
  let events := [NewHeader (sample.header 5) sample.unreachable] in
  let g' := globalsOf (watchLoop events (initial true)) in
  BlockBacklog g' !! 5 = Some sample.pending5 ∧
  (∀ height b, BlockBacklog g' !! height = Some b →
               big.Int64 (types.Number (blockswithtx.Block b)) = height ∧
               height ∈ headerHeights events) ∧
  silent g' = true.
Proof.
  split; [by vm_compute|].
  apply (backlog_holds_announced_blocks
           [NewHeader (sample.header 5) sample.unreachable] true).
  repeat constructor; apply sample_nodeAnswersHeight.
Defined.

(** ** Further properties of checkBlockRange *)

Section scanning_further.

Context (w : World) (startHeight endHeight : Z).

(** The line the caller prints stays the last line of the output. *)
Lemma step_report delivery p s s' :
  checkBlockRange.invariant w delivery s →
  (checkBlockRange.caller s = checkBlockRange.Returned →
   last (output (checkBlockRange.globals s))
   = Some (Processed (int64_add (int64_add endHeight (- startHeight)) 1)
             (checkBlockRange.numTx s))) →
  checkBlockRange.step w startHeight endHeight p s = Some s' →
  checkBlockRange.caller s' = checkBlockRange.Returned →
  last (output (checkBlockRange.globals s'))
  = Some (Processed (int64_add (int64_add endHeight (- startHeight)) 1)
            (checkBlockRange.numTx s')).
Proof.
  destruct s as [c r ts ch cl lk n ck g cr].
  unfold checkBlockRange.invariant, checkBlockRange.step, checkBlockRange.callerStep,
    checkBlockRange.poolStep, checkBlockRange.receiverStep; simpl.
  intros (Hall & Hnum & Hclosed & Hsent & Hlock & Hrange & Hspawn & Hfin & Hcap
          & Hcrash & Hpanic) Hlast Hstep.
  destruct p; repeat case_match; simplify_eq/=; try done.
  all: try (intros _; apply last_snoc).
  all: try (by destruct (Hrange eq_refl)).
Qed.

Lemma run_report delivery schedule s s' :
  checkBlockRange.invariant w delivery s →
  (checkBlockRange.caller s = checkBlockRange.Returned →
   last (output (checkBlockRange.globals s))
   = Some (Processed (int64_add (int64_add endHeight (- startHeight)) 1)
             (checkBlockRange.numTx s))) →
  checkBlockRange.run w startHeight endHeight schedule s = Some s' →
  checkBlockRange.caller s' = checkBlockRange.Returned →
  last (output (checkBlockRange.globals s'))
  = Some (Processed (int64_add (int64_add endHeight (- startHeight)) 1)
            (checkBlockRange.numTx s')).
Proof.
  revert s. induction schedule as [|p schedule IH]; intros s Hinv Hlast; simpl.
  { by intros [= <-]. }
  destruct (checkBlockRange.step w startHeight endHeight p s) as [s1|] eqn:Hstep; [|done].
  apply IH; eauto using step_invariant, step_report.
Qed.

(** X11. Whatever the schedule, when [checkBlockRange] returns it has
    printed its report, and one of three things has happened.  No panic has
    occurred and the receiving routine has checked every block that was
    sent, in the order of sending: the reported count is the sum of their
    transaction counts.  Or no panic has occurred and no block has been
    checked: the reported count is 0; this happens only when at most 100
    blocks were sent.  Or [checkBlock] has panicked on a block, which
    released the lock: the blocks sent before that block have been checked,
    the later ones are still in the channel, and the reported count is the
    sum of the transaction counts of the blocks before that block. *)
Theorem scan_report_cases delivery g schedule s :
  checkBlockRange.totalTx delivery < 2 ^ 63 →
  checkBlockRange.run w startHeight endHeight schedule
    (checkBlockRange.start startHeight endHeight delivery g) = Some s →
  checkBlockRange.caller s = checkBlockRange.Returned →
  (checkBlockRange.crashed s = None ∧
   checkBlockRange.checked s = delivery ∧
   checkBlockRange.reported s = Some (checkBlockRange.totalTx delivery)) ∨
  (checkBlockRange.crashed s = None ∧
   checkBlockRange.checked s = [] ∧
   checkBlockRange.reported s = Some 0 ∧
   (length delivery ≤ 100)%nat) ∨
  (∃ pre b c g0 g',
     checkBlockRange.crashed s = Some c ∧
     checkBlock w b g0 = Crashed c g' ∧
     checkBlockRange.checked s = pre ++ [b] ∧
     checkBlockRange.checked s ++ checkBlockRange.blockChan s = delivery ∧
     checkBlockRange.reported s = Some (checkBlockRange.totalTx pre)).
Proof.
  intros Hsmall Hrun Hret.
  pose proof (run_report delivery schedule _ s
                (start_invariant w startHeight endHeight delivery g)) as Hlast.
  specialize (Hlast ltac:(done) Hrun Hret).
  assert (Hrep : checkBlockRange.reported s = Some (checkBlockRange.numTx s)).
  { unfold checkBlockRange.reported. by rewrite Hret, Hlast. }
  destruct (returned_cases w startHeight endHeight delivery g schedule s Hrun Hret)
    as [(Hc & _ & Hck & _ & Hn)|[(Hc & _ & Hck & _ & Hn & Hlen)
        |(_ & pre & b & c & g0 & g' & Hc & Hb & Hck & Hall & Hn)]].
  - left. split; [done|]. split; [done|]. by rewrite Hrep, Hn, countTx_exact.
  - right. left. by rewrite Hrep, Hn.
  - right. right. exists pre, b, c, g0, g'. split_and!; try done.
    rewrite Hrep, Hn, countTx_exact; [done|].
    rewrite <- Hall, Hck, !totalTx_app in Hsmall.
    pose proof (totalTx_nonneg [b]). pose proof (totalTx_nonneg (checkBlockRange.blockChan s)).
    lia.
Qed.

(** X12. In every state a scan reaches, before or after a panic: the blocks
    checked so far, the blocks in the channel and the blocks still to send
    make up the delivery in its order (the blocks are checked first in,
    first out); the channel holds at most 100 blocks; the caller is not past
    [lock.Lock()] while the receiving routine is in its loop; unless a
    panic has occurred, [numTx] counts the transactions of the checked
    blocks; and after a panic it counts those of the blocks checked before
    the block on which [checkBlock] panicked. *)
Theorem scan_checks_in_delivery_order delivery g schedule s :
  checkBlockRange.run w startHeight endHeight schedule
    (checkBlockRange.start startHeight endHeight delivery g) = Some s →
  checkBlockRange.checked s ++ checkBlockRange.blockChan s ++ checkBlockRange.toSend s
  = delivery ∧
  (length (checkBlockRange.blockChan s) ≤ 100)%nat ∧
  (checkBlockRange.receiver s = checkBlockRange.Ranging →
   checkBlockRange.caller s ≠ checkBlockRange.Reporting ∧
   checkBlockRange.caller s ≠ checkBlockRange.Returned) ∧
  (checkBlockRange.crashed s = None →
   checkBlockRange.numTx s = checkBlockRange.countTx (checkBlockRange.checked s)) ∧
  (checkBlockRange.crashed s ≠ None →
   ∃ pre b, checkBlockRange.checked s = pre ++ [b] ∧
            checkBlockRange.numTx s = checkBlockRange.countTx pre).
Proof.
  intros Hrun.
  pose proof (run_invariant w startHeight endHeight delivery schedule _ s
                (start_invariant w startHeight endHeight delivery g) Hrun)
    as (Hall & Hnum & _ & _ & _ & Hrange & _ & _ & Hcap & Hcrash & Hpanic).
  split_and!; try done.
  intros Hc. destruct (Hpanic (Hcrash Hc)) as (pre & b & _ & _ & _ & Hck & Hn & _).
  by exists pre, b.
Qed.

(** X13. A scan never deadlocks: in every state it reaches, unless the
    process has panicked or the caller has returned, at least one of the
    three parties can move. *)
Theorem scan_never_deadlocks delivery g schedule s :
  checkBlockRange.run w startHeight endHeight schedule
    (checkBlockRange.start startHeight endHeight delivery g) = Some s →
  checkBlockRange.crashed s = None →
  checkBlockRange.caller s ≠ checkBlockRange.Returned →
  ∃ p s', checkBlockRange.step w startHeight endHeight p s = Some s'.
Proof.
  intros Hrun.
  pose proof (run_invariant w startHeight endHeight delivery schedule _ s
                (start_invariant w startHeight endHeight delivery g) Hrun) as Hinv.
  clear Hrun. destruct s as [c r ts ch cl lk n ck g0 cr].
  unfold checkBlockRange.invariant in Hinv; simpl in *.
  destruct Hinv
    as (Hall & Hnum & Hclosed & Hsent & Hlock & Hrange & Hspawn & Hfin & Hcap
        & Hcrash & Hpanic).
  intros -> Hnot.
  assert (Hlive : r ≠ checkBlockRange.Panicked).
  { intros Hp. by destruct (Hpanic Hp) as (? & ? & ? & ? & ? & _ & _ & ? & _). }
  destruct c; try done.
  - (* Fetching *)
    destruct ts as [|b ts].
    + exists checkBlockRange.CallerMoves. by eexists.
    + destruct r; try done.
      * exists checkBlockRange.ReceiverMoves.
        unfold checkBlockRange.step, checkBlockRange.receiverStep; simpl.
        rewrite Hlock. by eexists.
      * destruct ch as [|b0 ch].
        -- exists checkBlockRange.PoolSends.
           unfold checkBlockRange.step, checkBlockRange.poolStep; simpl. by eexists.
        -- exists checkBlockRange.ReceiverMoves.
           unfold checkBlockRange.step, checkBlockRange.receiverStep; simpl.
           destruct (checkBlock w b0 g0); by eexists.
      * destruct (Hfin eq_refl) as [_ ?]. congruence.
  - exists checkBlockRange.CallerMoves. by eexists.
  - (* Locking *)
    destruct r; try done.
    + exists checkBlockRange.CallerMoves.
      unfold checkBlockRange.step, checkBlockRange.callerStep; simpl.
      rewrite Hlock. by eexists.
    + exists checkBlockRange.ReceiverMoves.
      unfold checkBlockRange.step, checkBlockRange.receiverStep; simpl.
      destruct ch as [|b0 ch].
      * rewrite Hclosed. by eexists.
      * destruct (checkBlock w b0 g0); by eexists.
    + exists checkBlockRange.CallerMoves.
      unfold checkBlockRange.step, checkBlockRange.callerStep; simpl.
      rewrite Hlock. by eexists.
  - exists checkBlockRange.CallerMoves. by eexists.
Qed.

Lemma step_remaining p s s' :
  checkBlockRange.step w startHeight endHeight p s = Some s' →
  (S (checkBlockRange.remaining s') ≤ checkBlockRange.remaining s)%nat.
Proof.
  destruct s as [c r ts ch cl lk n ck g cr].
  unfold checkBlockRange.step, checkBlockRange.callerStep, checkBlockRange.poolStep,
    checkBlockRange.receiverStep, checkBlockRange.remaining; simpl.
  intros Hstep.
  destruct p; repeat case_match; simplify_eq/=; rewrite ?length_app; simpl; lia.
Qed.

(** X14. Every scan ends, with or without a panic: each move of a party
    uses up at least one of a stock of moves that is fixed by the number of
    blocks to send, so a schedule that the parties can follow has at most
    twice that number plus six moves. *)
Theorem scan_moves_are_bounded delivery g schedule s :
  checkBlockRange.run w startHeight endHeight schedule
    (checkBlockRange.start startHeight endHeight delivery g) = Some s →
  (length schedule + checkBlockRange.remaining s ≤ 2 * length delivery + 6)%nat.
Proof.
  assert (Hgen : ∀ s0, checkBlockRange.run w startHeight endHeight schedule s0 = Some s →
            (length schedule + checkBlockRange.remaining s
             ≤ checkBlockRange.remaining s0)%nat).
  { induction schedule as [|p schedule IH]; intros s0 Hrun.
    { injection Hrun as <-. cbn [length]. lia. }
    cbn [checkBlockRange.run] in Hrun.
    destruct (checkBlockRange.step w startHeight endHeight p s0) as [s1|] eqn:Hstep;
      [|done].
    pose proof (step_remaining p s0 s1 Hstep). specialize (IH s1 Hrun).
    cbn [length]. lia. }
  intros Hrun. specialize (Hgen _ Hrun).
  assert (Hinit : checkBlockRange.remaining
                    (checkBlockRange.start startHeight endHeight delivery g)
                  = (2 * length delivery + 6)%nat)
    by (unfold checkBlockRange.remaining, checkBlockRange.start; simpl; lia).
  by rewrite Hinit in Hgen.
Qed.

Lemma step_receiver_started p s s' :
  checkBlockRange.step w startHeight endHeight p s = Some s' →
  checkBlockRange.receiver s ≠ checkBlockRange.Spawned →
  checkBlockRange.receiver s' ≠ checkBlockRange.Spawned.
Proof.
  destruct s as [c r ts ch cl lk n ck g cr].
  unfold checkBlockRange.step, checkBlockRange.callerStep, checkBlockRange.poolStep,
    checkBlockRange.receiverStep; simpl.
  intros Hstep.
  destruct p; repeat case_match; simplify_eq/=; done.
Qed.

Lemma run_receiver_started schedule s s' :
  checkBlockRange.run w startHeight endHeight schedule s = Some s' →
  checkBlockRange.receiver s ≠ checkBlockRange.Spawned →
  checkBlockRange.receiver s' ≠ checkBlockRange.Spawned.
Proof.
  revert s. induction schedule as [|p schedule IH]; intros s; simpl.
  { by intros [= <-]. }
  destruct (checkBlockRange.step w startHeight endHeight p s) as [s1|] eqn:Hstep; [|done].
  eauto using step_receiver_started.
Qed.

(** X15. When the first move of a scan is the [lock.Lock()] of the receiving
    routine and [checkBlock] does not panic, the lock does work as a
    barrier: whatever the rest of the schedule, the caller returns only
    after every block that was sent has been checked, and [numTx] counts all
    their transactions. *)
Theorem receiver_first_scan_checks_every_block delivery g schedule s :
  checkBlockRange.run w startHeight endHeight
    (checkBlockRange.ReceiverMoves :: schedule)
    (checkBlockRange.start startHeight endHeight delivery g) = Some s →
  checkBlockRange.caller s = checkBlockRange.Returned →
  checkBlockRange.crashed s = None →
  checkBlockRange.receiver s = checkBlockRange.Finished ∧
  checkBlockRange.checked s = delivery ∧
  checkBlockRange.blockChan s = [] ∧
  checkBlockRange.numTx s = checkBlockRange.countTx delivery.
Proof.
  intros Hrun Hret Hc.
  destruct (returned_cases w startHeight endHeight delivery g _ s Hrun Hret)
    as [(_ & Hgood)|[(_ & Hspawned & _)|(_ & ? & ? & c & ? & ? & Hs & _)]];
    [done| |congruence].
  exfalso. simpl in Hrun.
  by apply (run_receiver_started schedule _ s Hrun).
Qed.

End scanning_further.

Lemma scan_report_cases_witness :
  ∃ s, checkBlockRange.run (sample.world [] (inr 100) sample.bundled) 50 100
         sample.panicThenReturn
         (checkBlockRange.start 50 100 sample.panicking (initial true)) = Some s ∧
       checkBlockRange.crashed s = Some NilDereference ∧
       checkBlockRange.reported s = Some 1 ∧
       ((checkBlockRange.crashed s = None ∧
         checkBlockRange.checked s = sample.panicking ∧
         checkBlockRange.reported s = Some (checkBlockRange.totalTx sample.panicking)) ∨
        (checkBlockRange.crashed s = None ∧
         checkBlockRange.checked s = [] ∧
         checkBlockRange.reported s = Some 0 ∧
         (length sample.panicking ≤ 100)%nat) ∨
        (∃ pre b c g0 g',
           checkBlockRange.crashed s = Some c ∧
           checkBlock (sample.world [] (inr 100) sample.bundled) b g0 = Crashed c g' ∧
           checkBlockRange.checked s = pre ++ [b] ∧
           checkBlockRange.checked s ++ checkBlockRange.blockChan s = sample.panicking ∧
           checkBlockRange.reported s = Some (checkBlockRange.totalTx pre))).
Proof.
  eexists. split; [by vm_compute|]. split; [by vm_compute|]. split; [by vm_compute|].
  eapply (scan_report_cases (sample.world [] (inr 100) sample.bundled) 50 100
            sample.panicking (initial true) sample.panicThenReturn);
    [by vm_compute|by vm_compute|by vm_compute].
Defined.

Lemma scan_checks_in_delivery_order_witness :
  ∃ s, checkBlockRange.run (sample.world [] (inr 100) sample.bundled) 50 100
         sample.panicThenReturn
         (checkBlockRange.start 50 100 sample.panicking (initial true)) = Some s ∧
       checkBlockRange.checked s = [sample.block100; sample.block99] ∧
       checkBlockRange.blockChan s = [sample.plain50] ∧
       checkBlockRange.crashed s = Some NilDereference ∧
       ∃ pre b, checkBlockRange.checked s = pre ++ [b] ∧
                checkBlockRange.numTx s = checkBlockRange.countTx pre.
Proof.
  eexists. split; [by vm_compute|].
  split; [by vm_compute|]. split; [by vm_compute|]. split; [by vm_compute|].
  eapply (scan_checks_in_delivery_order (sample.world [] (inr 100) sample.bundled)
            50 100 sample.panicking (initial true) sample.panicThenReturn);
    [by vm_compute|by vm_compute].
Defined.

Lemma scan_never_deadlocks_witness :
  ∃ p s',
    checkBlockRange.step (sample.world [] (inr 100) sample.bundled) 100 100 p
      (checkBlockRange.start 100 100 [sample.block100] (initial true)) = Some s'.
Proof.
  apply (scan_never_deadlocks (sample.world [] (inr 100) sample.bundled) 100 100
           [sample.block100] (initial true) []); [reflexivity|reflexivity|discriminate].
Defined.

Lemma scan_moves_are_bounded_witness :
  ∃ s, checkBlockRange.run (sample.world [] (inr 100) sample.bundled) 50 100
         sample.panicThenReturn
         (checkBlockRange.start 50 100 sample.panicking (initial true)) = Some s ∧
       (length sample.panicThenReturn + checkBlockRange.remaining s ≤ 2 * 3 + 6)%nat.
Proof.
  eexists. split; [by vm_compute|].
  apply (scan_moves_are_bounded (sample.world [] (inr 100) sample.bundled) 50 100
           sample.panicking (initial true)).
  by vm_compute.
Defined.

Lemma receiver_first_scan_checks_every_block_witness :
  ∃ s, checkBlockRange.run (sample.world [] (inr 100) sample.bundled) 100 100
         sample.receiverFirst
         (checkBlockRange.start 100 100 [sample.block100] (initial true)) = Some s ∧
       checkBlockRange.receiver s = checkBlockRange.Finished ∧
       checkBlockRange.checked s = [sample.block100] ∧
       checkBlockRange.blockChan s = [] ∧
       checkBlockRange.numTx s = checkBlockRange.countTx [sample.block100].
Proof.
  eexists. split; [by vm_compute|].
  apply (receiver_first_scan_checks_every_block
           (sample.world [] (inr 100) sample.bundled) 100 100
           [sample.block100] (initial true)
           [checkBlockRange.PoolSends; checkBlockRange.ReceiverMoves;
            checkBlockRange.CallerMoves; checkBlockRange.CallerMoves;
            checkBlockRange.ReceiverMoves; checkBlockRange.CallerMoves;
            checkBlockRange.CallerMoves]); by vm_compute.
Defined.



